(** * AppSync third-party gateway: error masking, identity injection, reporting

    A shallow embedding of [src/gateway-lambda/index.js] and
    [src/gateway-lambda/plugins.js].

    - JavaScript values that the code only carries around are a small
      untyped value type [JsVal]; [truthy] is JavaScript's ToBoolean.
    - An error object is a record [GqlError]: its class (what [instanceof]
      inspects), the fields the code reads or deletes, and an optional
      [extensions] object, a finite map from property names to values.
    - Logging and the error-tracking service are effects: every call is an
      [Event] appended to a trace that is threaded through the hooks.
    - The three [let] flags of the [errorTracker] listener are the record
      [Listener], passed from hook to hook.
    - The module-level [apolloHandler] variable and the [await] inside
      [handler] are a small-step machine over handler invocations. *)

From stdpp Require Import gmap strings list fin_maps.

Open Scope string_scope.
Open Scope list_scope.

(** ** JavaScript values *)

#[local] Unset Elimination Schemes.
Inductive JsVal : Type :=
| JUndefined
| JNull
| JBool (b : bool)
| JNum (n : Z)
| JNaN
| JStr (s : string)
| JArr (items : list JsVal)
| JObj (fields : list (string * JsVal)).
#[local] Set Elimination Schemes.

(** ToBoolean: [undefined], [null], [false], [0], [NaN] and the empty string are
    falsy, everything else (arrays and objects included) is truthy. *)
Definition truthy (v : JsVal) : bool :=
  match v with
  | JUndefined | JNull | JNaN => false
  | JBool b => b
  | JNum n => negb (n =? 0)%Z
  | JStr s => negb (String.eqb s "")
  | JArr _ | JObj _ => true
  end.

(** [v === "lit"] for a string literal. *)
Definition strict_eq_str (v : JsVal) (lit : string) : bool :=
  match v with
  | JStr s => String.eqb s lit
  | _ => false
  end.

(** [v || null] *)
Definition or_null (v : JsVal) : JsVal := if truthy v then v else JNull.

(** [String.prototype.trim] on a header value, a string of Latin-1 code units:
    TAB, LF, VT, FF, CR, SP and NBSP are the white space and line terminators
    below U+0100. *)
Definition isWhiteSpace (c : Ascii.ascii) : bool :=
  let n := Ascii.nat_of_ascii c in
  ((n =? 9) || (n =? 10) || (n =? 11) || (n =? 12) || (n =? 13) || (n =? 32)
   || (n =? 160))%nat.

Fixpoint trimStart (s : string) : string :=
  match s with
  | EmptyString => EmptyString
  | String c s' => if isWhiteSpace c then trimStart s' else s
  end.

Definition trimEnd (s : string) : string := String.rev (trimStart (String.rev s)).

Definition trim (s : string) : string := trimEnd (trimStart s).

(** ** Error objects *)

(** The classes [instanceof] can tell apart.  [ObjectC] is a plain object, such
    as an entry of the [errors] array of a JSON response; [ErrorC] is [Error]
    and every subclass of it that is not listed. *)
Inductive ErrorClass : Type :=
| ObjectC
| ErrorC
| GraphQLErrorC
| ApolloErrorC
| AuthenticationErrorC
| ForbiddenErrorC
| UserInputErrorC
| SyntaxErrorC
| ValidationErrorC.

Global Instance ErrorClass_eq_dec : EqDecision ErrorClass.
Proof. solve_decision. Defined.

(** [nodes], [source] and [positions] are what graphql-js derives an error's
    locations from. *)
Record GqlError : Type := mkError {
  cls : ErrorClass;
  message : string;
  stack : option string;
  nodes : JsVal;
  source : JsVal;
  positions : JsVal;
  path : JsVal;
  originalError : JsVal;
  extensions : option (gmap string JsVal)
}.

Definition with_stack (st : option string) (e : GqlError) : GqlError :=
  mkError (cls e) (message e) st (nodes e) (source e) (positions e) (path e)
    (originalError e) (extensions e).

Definition with_message (m : string) (e : GqlError) : GqlError :=
  mkError (cls e) m (stack e) (nodes e) (source e) (positions e) (path e)
    (originalError e) (extensions e).

Definition with_extensions (x : option (gmap string JsVal)) (e : GqlError) : GqlError :=
  mkError (cls e) (message e) (stack e) (nodes e) (source e) (positions e) (path e)
    (originalError e) x.

(** [err.extensions?.code] *)
Definition extensions_code (e : GqlError) : JsVal :=
  match extensions e with
  | Some x => default JUndefined (x !! "code")
  | None => JUndefined
  end.

(** [{ ...x, code: c }]: spreading [undefined] contributes nothing. *)
Definition spread_with_code (x : option (gmap string JsVal)) (c : string)
  : gmap string JsVal :=
  <["code" := JStr c]> (default ∅ x).

(** The first line of a stack trace; the frames are not modelled. *)
Definition stack_of (name msg : string) : option string := Some (String.append name (String.append ": " msg)).

(** [new Error(message)] *)
Definition Error_new (msg : string) : GqlError :=
  mkError ErrorC msg (stack_of "Error" msg)
    JUndefined JUndefined JUndefined JUndefined JUndefined None.

(** [new GraphQLError(message, nodes, source, positions, path, originalError,
    extensions)]: the arguments become the fields of the same names. *)
Definition GraphQLError_new (msg : string) (nds src pos pth orig : JsVal)
    (ext : option (gmap string JsVal)) : GqlError :=
  mkError GraphQLErrorC msg (stack_of "GraphQLError" msg) nds src pos pth orig ext.

(** apollo-server's [ApolloError(message, code, extensions)] sets
    [this.extensions = { ...extensions, code }]; its subclasses fix the code. *)
Definition ApolloError_new (c : ErrorClass) (name msg code : string)
    (ext : option (gmap string JsVal)) : GqlError :=
  mkError c msg (stack_of name msg)
    JUndefined JUndefined JUndefined JUndefined JUndefined
    (Some (spread_with_code ext code)).

Definition AuthenticationError (msg : string) : GqlError :=
  ApolloError_new AuthenticationErrorC "AuthenticationError" msg "UNAUTHENTICATED" None.

Definition UserInputError (msg : string) (ext : option (gmap string JsVal)) : GqlError :=
  ApolloError_new UserInputErrorC "UserInputError" msg "BAD_USER_INPUT" ext.

Definition SyntaxError (msg : string) : GqlError :=
  ApolloError_new SyntaxErrorC "SyntaxError" msg "GRAPHQL_PARSE_FAILED" None.

Definition instanceof (e : GqlError) (c : ErrorClass) : bool := bool_decide (cls e = c).

(** ** index.js: the error transform and [formatError] *)

Definition APPSYNC_PASSTHROUGH_ERROR : string := "APPSYNC_PASSTHROUGH_ERROR".
Definition INTERNAL_SERVER_ERROR : string := "INTERNAL_SERVER_ERROR".
Definition generic_message : string := "Internal Server Error".

(** What the executor resolves to: the JSON body of the backend's response. *)
Record RawResult : Type := mkResult {
  data : JsVal;
  errors : option (list GqlError)
}.

(** [appSyncPassThroughErrorTransform.transformResult] *)
Definition passThroughError (error : GqlError) : GqlError :=
  GraphQLError_new (message error) (nodes error) (source error) (positions error)
    (path error) (originalError error)
    (Some (spread_with_code (extensions error) APPSYNC_PASSTHROUGH_ERROR)).

Definition transformResult (originalResult : RawResult) : RawResult :=
  match errors originalResult with
  | Some errs => mkResult (data originalResult) (Some (map passThroughError errs))
  | None => originalResult
  end.

(** [formatError], statement by statement. *)
Definition formatError (err : GqlError) : GqlError :=
  let err := with_stack None err in
  let err := with_extensions (delete "exception" <$> extensions err) err in
  let err :=
    if strict_eq_str (extensions_code err) APPSYNC_PASSTHROUGH_ERROR
    then with_extensions None err
    else err in
  let err :=
    if strict_eq_str (extensions_code err) INTERNAL_SERVER_ERROR
    then with_extensions None (with_message generic_message err)
    else err in
  err.

(** ** index.js: credential lookup and the [context] function *)

(** The [ApiUsersTable]: items keyed by their [apiKey] attribute.  A [get] on it
    either rejects with an error or resolves to an output whose [Item] is the
    stored item, if there is one. *)
Record Table : Type := mkTable {
  lookup_fault : option GqlError;
  rows : gmap string (gmap string JsVal)
}.

Record GetItemOutput : Type := mkOutput {
  Item : option (gmap string JsVal)
}.

Definition ddbDocClient_get (t : Table) (apiKey : string) : GqlError + GetItemOutput :=
  match lookup_fault t with
  | Some e => inl e
  | None => inr (mkOutput (rows t !! apiKey))
  end.

(** [getAffinityFromApiKey]: [apiKeyRecord.Item?.affinity || null]. *)
Definition getAffinityFromApiKey (t : Table) (apiKey : string) : GqlError + JsVal :=
  match ddbDocClient_get t apiKey with
  | inl e => inl e
  | inr apiKeyRecord =>
      inr (or_null (default JUndefined (Item apiKeyRecord ≫= (.!! "affinity"))))
  end.

(** The per-request context object: [{ affinity }] or [{ contextError: err }]. *)
Record Context : Type := mkContext {
  affinity : option JsVal;
  contextError : option GqlError
}.

(** The body of the [try] block of [context]: [inl] is a [throw]. *)
Definition context_try (t : Table) (authorization : option string) : GqlError + JsVal :=
  match authorization with
  | None => inl (AuthenticationError "Missing authorization header")
  | Some apiKey =>
      if negb (truthy (JStr apiKey))
      then inl (AuthenticationError "Missing authorization header")
      else
        match getAffinityFromApiKey t (trim apiKey) with
        | inl e => inl e
        | inr aff =>
            if negb (truthy aff)
            then inl (AuthenticationError "Invalid authorization header")
            else inr aff
        end
  end.

(** [context]: the [catch] turns every throw into [{ contextError: err }]. *)
Definition context (t : Table) (authorization : option string) : Context :=
  match context_try t authorization with
  | inr aff => mkContext (Some aff) None
  | inl err => mkContext None (Some err)
  end.

(** ** index.js: the gateway resolvers *)

Inductive OperationType : Type := OpQuery | OpMutation.

(** The argument object of a [delegateToSchema] call.  The remote schema and the
    [context] and [info] objects are passed through as they are; the single
    transform every resolver installs is the pass-through error transform. *)
Record Delegation : Type := mkDelegation {
  operation : OperationType;
  fieldName : string;
  args : gmap string JsVal;
  delegation_context : Context;
  transforms : list (RawResult → RawResult)
}.

(** [{ ...args, affinity: context.affinity }] *)
Definition with_affinity (a : gmap string JsVal) (ctx : Context) : gmap string JsVal :=
  <["affinity" := default JUndefined (affinity ctx)]> a.

(** [gatewayResolvers.Query.sayHello] *)
Definition sayHello (a : gmap string JsVal) (ctx : Context) : Delegation :=
  mkDelegation OpQuery "sayHello" (with_affinity a ctx) ctx [transformResult].

(** [gatewayResolvers.Mutation.someRandomMutation] *)
Definition someRandomMutation (a : gmap string JsVal) (ctx : Context) : Delegation :=
  mkDelegation OpMutation "someRandomMutation" (with_affinity a ctx) ctx [transformResult].

(** ** Effects: logging and the error-tracking service *)

Inductive Event : Type :=
| LogInfo (label : string)
| LogInfoErrors (label : string) (errs : list GqlError)
| LogError (e : GqlError)
| ConsoleLog (line : string)
| SetExtraInfo (name : string) (value : JsVal)
| CaptureException (e : GqlError)
| Flush
| DelegateToSchema (d : Delegation).

Inductive Outcome (A : Type) : Type :=
| Returned (a : A)
| Thrown (e : GqlError).
Arguments Returned {A} a.
Arguments Thrown {A} e.

(** A computation appends events to the trace and returns or throws. *)
Definition Eff (A : Type) : Type := (list Event * Outcome A)%type.

Definition ret {A} (a : A) : Eff A := ([], Returned a).

Definition throw {A} (e : GqlError) : Eff A := ([], Thrown e).

Definition emit (ev : Event) : Eff unit := ([ev], Returned tt).

Definition bind {A B} (m : Eff A) (k : A → Eff B) : Eff B :=
  match m with
  | (tr, Returned a) => let '(tr', r) := k a in (tr ++ tr', r)
  | (tr, Thrown e) => (tr, Thrown e)
  end.

Notation "m >> k" := (bind m (λ _, k)) (at level 100, k at level 200, right associativity).

(** [for (const x of xs) body] *)
Fixpoint for_of {A} (xs : list A) (body : A → Eff unit) : Eff unit :=
  match xs with
  | [] => ret tt
  | x :: xs' => body x >> for_of xs' body
  end.

Definition log_info (label : string) : Eff unit := emit (LogInfo label).
Definition log_error (e : GqlError) : Eff unit := emit (LogError e).
Definition console_log (line : string) : Eff unit := emit (ConsoleLog line).

(** [FictionalErrorTrackingService]: the call is recorded, then its body runs. *)
Definition captureException (exception : GqlError) : Eff unit :=
  emit (CaptureException exception) >> log_error exception.

Definition setExtraInfo (extraInfoFieldName : string) (extraInfoFieldValue : JsVal)
  : Eff unit :=
  emit (SetExtraInfo extraInfoFieldName extraInfoFieldValue) >>
  log_info "Setting extraInfo in FictionalErrorTrackingService".

Definition flush : Eff unit :=
  emit Flush >>
  log_info "flushing errors to FictionalErrorTrackingService with timeout".

(** What a trace says was sent to the service, flushed and delegated. *)
Definition captured (tr : list Event) : list GqlError :=
  omap (λ ev, match ev with CaptureException e => Some e | _ => None end) tr.

Definition flushes (tr : list Event) : nat :=
  length (omap (λ ev, match ev with Flush => Some tt | _ => None end) tr).

Definition delegations (tr : list Event) : list Delegation :=
  omap (λ ev, match ev with DelegateToSchema d => Some d | _ => None end) tr.

(** What a trace says was written with [log.error]. *)
Definition logged (tr : list Event) : list GqlError :=
  omap (λ ev, match ev with LogError e => Some e | _ => None end) tr.

(** ** plugins.js: the [errorTracker] plugin *)

Record GraphQLRequest : Type := mkRequest {
  query : JsVal;
  variables : JsVal
}.

(** One operation definition of the parsed document: its kind and its name. *)
Record OperationDefinition : Type := mkOperation {
  op_type : OperationType;
  op_name : option string
}.

(** The part of the framework's [requestContext] that the hooks read. *)
Record RequestContext : Type := mkRequestContext {
  request : GraphQLRequest;
  rc_context : Context;
  document : list OperationDefinition;
  operationName : JsVal;
  rc_errors : list GqlError
}.

(** The three [let] variables that the listener's hooks close over. *)
Record Listener : Type := mkListener {
  graphqlParsingFailure : bool;
  graphqlValidationFailure : bool;
  graphqlUnknownOperationName : bool
}.

(** [errorTracker.requestDidStart]: throws, or returns the listener with its
    three flags initialised to [false]. *)
Definition requestDidStart (ctx : RequestContext) : Eff Listener :=
  setExtraInfo "query" (query (request ctx)) >>
  setExtraInfo "variables" (variables (request ctx)) >>
  match contextError (rc_context ctx) with
  | Some err =>
      log_error err >>
      if instanceof err AuthenticationErrorC
      then throw err
      else
        captureException err >>
        flush >>
        throw (Error_new "Internal Server Error")
  | None =>
      (match affinity (rc_context ctx) with
       | Some a => if truthy a then setExtraInfo "affinity" a else ret tt
       | None => ret tt
       end) >>
      ret (mkListener false false false)
  end.

(** The callback [parsingDidStart] returns, called when parsing ends. *)
Definition parsingDidEnd (parsingError : option GqlError) (l : Listener) : Listener :=
  match parsingError with
  | Some _ => mkListener true (graphqlValidationFailure l) (graphqlUnknownOperationName l)
  | None => l
  end.

(** The callback [validationDidStart] returns, called when validation ends. *)
Definition validationDidEnd (validationErrors : option (list GqlError)) (l : Listener)
  : Listener :=
  match validationErrors with
  | Some (_ :: _) =>
      mkListener (graphqlParsingFailure l) true (graphqlUnknownOperationName l)
  | _ => l
  end.

Definition didResolveOperation (requestContext : RequestContext) (l : Listener)
  : Listener :=
  match operationName requestContext with
  | JUndefined => mkListener (graphqlParsingFailure l) (graphqlValidationFailure l) true
  | _ => l
  end.

(** The two [continue] tests of the loop in [didEncounterErrors]. *)
Definition is_passthrough (err : GqlError) : bool :=
  strict_eq_str (extensions_code err) APPSYNC_PASSTHROUGH_ERROR.

Definition is_bad_user_input (err : GqlError) : bool :=
  instanceof err UserInputErrorC || instanceof err SyntaxErrorC.

Definition didEncounterErrors (requestContext : RequestContext) (l : Listener)
  : Eff unit :=
  emit (LogInfoErrors "didEncounterErrors" (rc_errors requestContext)) >>
  if graphqlParsingFailure l || graphqlValidationFailure l
     || graphqlUnknownOperationName l
  then ret tt
  else
    for_of (rc_errors requestContext) (λ err,
      log_error err >>
      if is_passthrough err then ret tt
      else if is_bad_user_input err then ret tt
      else console_log "SENDING TO SENTRY" >> captureException err) >>
    flush.

(** The test that makes [didEncounterErrors] return at once, and the errors its
    loop sends to the service when it does not. *)
Definition any_flag (l : Listener) : bool :=
  graphqlParsingFailure l || graphqlValidationFailure l || graphqlUnknownOperationName l.

Definition reportable (err : GqlError) : bool :=
  negb (is_passthrough err) && negb (is_bad_user_input err).

(** Every flag that is set in [l] is set in [l']. *)
Definition flags_kept (l l' : Listener) : Prop :=
  (graphqlParsingFailure l = true → graphqlParsingFailure l' = true) ∧
  (graphqlValidationFailure l = true → graphqlValidationFailure l' = true) ∧
  (graphqlUnknownOperationName l = true → graphqlUnknownOperationName l' = true).

(** The events of one iteration of that loop. *)
Definition iteration_trace (err : GqlError) : list Event :=
  LogError err ::
  (if reportable err
   then [ConsoleLog "SENDING TO SENTRY"; CaptureException err; LogError err]
   else []).

(** ** The request lifecycle *)

(** Modelled from the spec: the framework step between the hooks and
    [formatError], which is not part of src/.  As the comment in [formatError]
    and section 3 of the spec say, an error that carries no code of its own
    reaches [formatError] with the code [INTERNAL_SERVER_ERROR]; an error with a
    code keeps it. *)
Definition enrichError (e : GqlError) : GqlError :=
  let c := extensions_code e in
  with_extensions
    (Some (<["code" := if truthy c then c else JStr INTERNAL_SERVER_ERROR]>
             (default ∅ (extensions e)))) e.

(** The root fields of the gateway schema that have a resolver. *)
Inductive GatewayField : Type := SayHelloField | SomeRandomMutationField.

Definition resolver (f : GatewayField) : gmap string JsVal → Context → Delegation :=
  match f with
  | SayHelloField => sayHello
  | SomeRandomMutationField => someRandomMutation
  end.

(** The remote executor: the backend's answer to a delegated operation, or the
    exception of a failed transport. *)
Definition Executor : Type := Delegation → GqlError + RawResult.

(** Modelled from the spec: [delegateToSchema] (section 4.4), a library call:
    the delegated operation goes to the executor and the transforms of the
    delegation are applied to what it returns. *)
Definition delegateToSchema (executor : Executor) (d : Delegation) : Eff RawResult :=
  emit (DelegateToSchema d) >>
  match executor d with
  | inl e => throw e
  | inr r => ret (foldl (λ acc f, f acc) r (transforms d))
  end.

(** A request as the pipeline sees it: the credential header, the operation, and
    the outcome of each stage that is decided outside src/ (parsing, validation,
    operation resolution, and the selected root fields with their arguments). *)
Record Incoming : Type := mkIncoming {
  authorization : option string;
  in_request : GraphQLRequest;
  in_parsingError : option GqlError;
  in_validationErrors : list GqlError;
  in_document : list OperationDefinition;
  in_operationName : JsVal;
  in_selection : list (GatewayField * gmap string JsVal)
}.

(** The errors one root field contributes to the request. *)
Definition executeField (executor : Executor) (ctx : Context)
    (sel : GatewayField * gmap string JsVal) : list Event * list GqlError :=
  match delegateToSchema executor (resolver sel.1 sel.2 ctx) with
  | (tr, Thrown e) => (tr, [e])
  | (tr, Returned r) => (tr, default [] (errors r))
  end.

Fixpoint executeFields (executor : Executor) (ctx : Context)
    (sels : list (GatewayField * gmap string JsVal)) : list Event * list GqlError :=
  match sels with
  | [] => ([], [])
  | sel :: rest =>
      let '(tr, es) := executeField executor ctx sel in
      let '(tr', es') := executeFields executor ctx rest in
      (tr ++ tr', es ++ es')
  end.

(** The errors of the request go through [didEncounterErrors] and are then
    formatted one by one for the response. *)
Definition sendErrors (requestContext : RequestContext) (l : Listener)
  : list Event * list GqlError :=
  ((didEncounterErrors requestContext l).1,
   map (λ e, formatError (enrichError e)) (rc_errors requestContext)).

(** Modelled from the spec: the request pipeline of section 4.5 (context
    building, parsing, validating, operation resolving, executing, formatting),
    which the framework drives and src/ only hooks into.  A stage that fails
    moves to formatting and skips the remaining stages; a throw of
    [requestDidStart] ends the request with that error as the response.  The
    result is the trace of the request and the errors of the response. *)
Definition processRequest (t : Table) (executor : Executor) (r : Incoming)
  : list Event * list GqlError :=
  let ctx := context t (authorization r) in
  let rc := mkRequestContext (in_request r) ctx [] JUndefined in
  match requestDidStart (rc []) with
  | (tr, Thrown e) => (tr, [formatError (enrichError e)])
  | (tr, Returned l0) =>
      let l1 := parsingDidEnd (in_parsingError r) l0 in
      match in_parsingError r with
      | Some e =>
          let '(tr', out) := sendErrors (rc [e]) l1 in (tr ++ tr', out)
      | None =>
          match in_validationErrors r with
          | (_ :: _) as errs =>
              let l2 := validationDidEnd (Some errs) l1 in
              let '(tr', out) := sendErrors (rc errs) l2 in (tr ++ tr', out)
          | [] =>
              let l2 := validationDidEnd None l1 in
              let rc' :=
                mkRequestContext (in_request r) ctx (in_document r) (in_operationName r) in
              let l3 := didResolveOperation (rc' []) l2 in
              let '(trx, errs) := executeFields executor ctx (in_selection r) in
              match errs with
              | [] => (tr ++ trx, [])
              | _ :: _ =>
                  let '(tr', out) := sendErrors (rc' errs) l3 in
                  (tr ++ trx ++ tr', out)
              end
          end
      end
  end.

(** ** index.js: the cached handler *)

Module ColdStart.

(** The module-level state of the process: the [apolloHandler] variable, holding
    the handler built by the k-th call of [createApolloServer], and the number of
    schema discoveries ([introspectSchema] calls) made so far. *)
Record Process : Type := mkProcess {
  apolloHandler : option nat;
  discoveries : nat
}.

(** One invocation of [handler].  It runs without interruption up to its
    [await]: the test of [apolloHandler] and the call of [createApolloServer],
    which starts the discovery, are one step; the assignment to [apolloHandler]
    and the call of the handler are a later step. *)
Inductive Invocation : Type :=
| Entered
| AwaitingServer (k : nat)
| Settled (used : option nat).

Record System : Type := mkSystem {
  process : Process;
  invocations : list Invocation
}.

(** [ok k] tells whether the k-th [createApolloServer] resolves; when it rejects,
    the invocation rejects and [apolloHandler] is left as it was. *)
Definition step_invocation (ok : nat → bool) (p : Process) (i : Invocation)
  : Process * Invocation :=
  match i with
  | Entered =>
      match apolloHandler p with
      | None =>
          let k := S (discoveries p) in
          (mkProcess (apolloHandler p) k, AwaitingServer k)
      | Some h => (p, Settled (Some h))
      end
  | AwaitingServer k =>
      if ok k
      then (mkProcess (Some k) (discoveries p), Settled (Some k))
      else (p, Settled None)
  | Settled u => (p, Settled u)
  end.

(** The event loop resumes invocation [n]. *)
Definition step (ok : nat → bool) (s : System) (n : nat) : System :=
  match invocations s !! n with
  | Some i =>
      let '(p, i') := step_invocation ok (process s) i in
      mkSystem p (<[n := i']> (invocations s))
  | None => s
  end.

Definition run (ok : nat → bool) (schedule : list nat) (s : System) : System :=
  foldl (step ok) s schedule.

(** A fresh process with [n] invocations of [handler] pending. *)
Definition cold (n : nat) : System := mkSystem (mkProcess None 0) (replicate n Entered).

(** Requests handled one after the other: each runs its two steps before the
    next one starts. *)
Definition one_by_one (n : nat) : list nat := flat_map (λ i, [i; i]) (seq 0 n).

(** The invocations that have not run yet. *)
Definition pending (l : list Invocation) : nat :=
  length (List.filter (λ i, match i with Entered => true | _ => false end) l).

(** A handler number that stands for a server that was built: the number of a
    discovery that was started and that resolved. *)
Definition built (ok : nat → bool) (p : Process) (k : nat) : Prop :=
  ok k = true ∧ (1 ≤ k ≤ discoveries p)%nat.

(** Every handler in use, cached or serving an invocation, was built, and every
    discovery awaited was started. *)
Definition coherent (ok : nat → bool) (s : System) : Prop :=
  (∀ h, apolloHandler (process s) = Some h → built ok (process s) h) ∧
  Forall (λ i, match i with
               | Entered | Settled None => True
               | AwaitingServer k => (1 ≤ k ≤ discoveries (process s))%nat
               | Settled (Some k) => built ok (process s) k
               end) (invocations s).

End ColdStart.

(** ** Sample data *)

Module Sample.

(** A table with the credential [K] issued to [dev-42]. *)
Definition table : Table :=
  mkTable None {[ "K" := {[ "apiKey" := JStr "K"; "affinity" := JStr "dev-42" ]} ]}.

(** The same credential stored with an empty affinity. *)
Definition table_empty_affinity : Table :=
  mkTable None {[ "K" := {[ "apiKey" := JStr "K"; "affinity" := JStr "" ]} ]}.

(** A table whose lookups reject. *)
Definition lookup_error : GqlError := Error_new "ServiceUnavailable".

Definition table_down : Table := mkTable (Some lookup_error) ∅.

Definition hello : GraphQLRequest :=
  mkRequest (JStr "query ($n: String) { sayHello(name: $n) }")
    (JObj [("n", JStr "x")]).

(** [sayHello(name: x)], sent with the given header; [opName] is what the
    framework has put in [requestContext.operationName]. *)
Definition request (authorization : option string) (opName : JsVal) : Incoming :=
  mkIncoming authorization hello None [] [mkOperation OpQuery None] opName
    [(SayHelloField, {[ "name" := JStr "x" ]})].

(** A query that does not parse. *)
Definition syntax_error : GqlError :=
  SyntaxError "Syntax Error: Expected Name, found <EOF>.".

Definition malformed (authorization : option string) : Incoming :=
  mkIncoming authorization (mkRequest (JStr "query {") JUndefined)
    (Some syntax_error) [] [] JUndefined [].

(** An error entry of a backend response, with an extension of the backend. *)
Definition backend_error : GqlError :=
  mkError ObjectC "Not Authorized" None JUndefined JUndefined JUndefined
    (JArr [JStr "sayHello"]) JUndefined
    (Some {[ "errorType" := JStr "Unauthorized" ]}).

Definition backend_rejects : Executor :=
  λ _, inr (mkResult JNull (Some [backend_error])).

Definition backend_answers : Executor :=
  λ _, inr (mkResult (JObj [("sayHello", JStr "Hello x")]) None).

(** The transport to the backend fails. *)
Definition transport_error : GqlError := Error_new "connect ECONNREFUSED".

Definition transport_fails : Executor := λ _, inl transport_error.

(** A local error that carries a code of its own. *)
Definition coded_error : GqlError :=
  ApolloError_new ApolloErrorC "ApolloError" "pool exhausted on db-7" "DB_UNAVAILABLE" None.


End Sample.

(** * Properties *)

(** ** Traces *)

Lemma captured_app (tr1 tr2 : list Event) :
  captured (tr1 ++ tr2) = captured tr1 ++ captured tr2.
Proof. unfold captured. apply omap_app. Qed.

Lemma delegations_app (tr1 tr2 : list Event) :
  delegations (tr1 ++ tr2) = delegations tr1 ++ delegations tr2.
Proof. unfold delegations. apply omap_app. Qed.

Lemma flushes_app (tr1 tr2 : list Event) :
  flushes (tr1 ++ tr2) = flushes tr1 + flushes tr2.
Proof. unfold flushes. by rewrite omap_app, length_app. Qed.

(** A loop whose body never throws runs to its end, and its trace is the traces
    of its iterations one after the other. *)
Lemma for_of_returned {A} (xs : list A) (body : A → Eff unit) :
  (∀ x, (body x).2 = Returned tt) →
  for_of xs body = (concat (map (λ x, (body x).1) xs), Returned tt).
Proof.
  intros Hbody. induction xs as [|x xs IH]; [done|].
  simpl. unfold bind. specialize (Hbody x).
  destruct (body x) as [tr o]. simpl in *. subst o. by rewrite IH.
Qed.

Lemma didEncounterErrors_returns (rc : RequestContext) (l : Listener) :
  (didEncounterErrors rc l).2 = Returned tt.
Proof.
  unfold didEncounterErrors. fold (any_flag l). destruct (any_flag l); [done|].
  rewrite for_of_returned; [done|].
  intros x. destruct (is_passthrough x), (is_bad_user_input x); done.
Qed.

(** The whole trace of [didEncounterErrors]. *)
Lemma didEncounterErrors_trace (rc : RequestContext) (l : Listener) :
  (didEncounterErrors rc l).1 =
  LogInfoErrors "didEncounterErrors" (rc_errors rc) ::
  (if any_flag l then []
   else concat (map iteration_trace (rc_errors rc)) ++
        [Flush; LogInfo "flushing errors to FictionalErrorTrackingService with timeout"]).
Proof.
  unfold didEncounterErrors. fold (any_flag l). destruct (any_flag l); [done|].
  rewrite for_of_returned.
  2: { intros x. destruct (is_passthrough x), (is_bad_user_input x); done. }
  cbn. do 3 f_equal. apply map_ext. intros e. unfold iteration_trace, reportable.
  destruct (is_passthrough e), (is_bad_user_input e); done.
Qed.

Lemma captured_iterations (errs : list GqlError) :
  captured (concat (map iteration_trace errs)) = List.filter reportable errs.
Proof.
  induction errs as [|e es IH]; [done|].
  cbn [map concat List.filter]. rewrite captured_app, IH.
  unfold iteration_trace. destruct (reportable e); done.
Qed.

Lemma flushes_iterations (errs : list GqlError) :
  flushes (concat (map iteration_trace errs)) = 0.
Proof.
  induction errs as [|e es IH]; [done|].
  cbn [map concat]. rewrite flushes_app, IH.
  unfold iteration_trace. destruct (reportable e); done.
Qed.

Lemma delegations_iterations (errs : list GqlError) :
  delegations (concat (map iteration_trace errs)) = [].
Proof.
  induction errs as [|e es IH]; [done|].
  cbn [map concat]. rewrite delegations_app, IH.
  unfold iteration_trace. destruct (reportable e); done.
Qed.

Lemma didEncounterErrors_captured (rc : RequestContext) (l : Listener) :
  captured (didEncounterErrors rc l).1 =
  if any_flag l then [] else List.filter reportable (rc_errors rc).
Proof.
  rewrite didEncounterErrors_trace. destruct (any_flag l); [done|].
  change (captured (?x :: ?t)) with (captured t).
  by rewrite captured_app, captured_iterations, app_nil_r.
Qed.

Lemma didEncounterErrors_flushes (rc : RequestContext) (l : Listener) :
  flushes (didEncounterErrors rc l).1 = if any_flag l then 0 else 1.
Proof.
  rewrite didEncounterErrors_trace. destruct (any_flag l); [done|].
  change (flushes (?x :: ?t)) with (flushes t).
  by rewrite flushes_app, flushes_iterations.
Qed.

Lemma didEncounterErrors_delegations (rc : RequestContext) (l : Listener) :
  delegations (didEncounterErrors rc l).1 = [].
Proof.
  rewrite didEncounterErrors_trace. destruct (any_flag l); [done|].
  change (delegations (?x :: ?t)) with (delegations t).
  by rewrite delegations_app, delegations_iterations.
Qed.

(** ** [formatError] and the error transform *)

Lemma code_after_delete_exception (x : gmap string JsVal) :
  default JUndefined (delete "exception" x !! "code") = default JUndefined (x !! "code").
Proof. by rewrite lookup_delete_ne. Qed.

(** [formatError] by cases on the code of the error it is given. *)
Lemma formatError_cases (e : GqlError) :
  formatError e =
  if is_passthrough e then with_extensions None (with_stack None e)
  else if strict_eq_str (extensions_code e) INTERNAL_SERVER_ERROR
       then with_extensions None (with_message generic_message (with_stack None e))
       else with_extensions (delete "exception" <$> extensions e) (with_stack None e).
Proof.
  destruct e as [c m st nd sr ps pt oe [x|]]; unfold formatError, is_passthrough,
    extensions_code; cbn; [|done].
  rewrite code_after_delete_exception.
  destruct (strict_eq_str (default JUndefined (x !! "code")) APPSYNC_PASSTHROUGH_ERROR);
    cbn; [done|].
  rewrite code_after_delete_exception.
  by destruct (strict_eq_str (default JUndefined (x !! "code")) INTERNAL_SERVER_ERROR).
Qed.

Lemma formatError_stack (e : GqlError) : stack (formatError e) = None.
Proof.
  rewrite formatError_cases.
  destruct (is_passthrough e); [done|].
  by destruct (strict_eq_str (extensions_code e) INTERNAL_SERVER_ERROR).
Qed.

(** [formatError] touches nothing but the message, the stack and the
    extensions. *)
Lemma formatError_frame (e : GqlError) :
  cls (formatError e) = cls e ∧ nodes (formatError e) = nodes e ∧
  source (formatError e) = source e ∧ positions (formatError e) = positions e ∧
  path (formatError e) = path e ∧ originalError (formatError e) = originalError e.
Proof.
  rewrite formatError_cases.
  destruct (is_passthrough e); [done|].
  by destruct (strict_eq_str (extensions_code e) INTERNAL_SERVER_ERROR).
Qed.

Lemma enrichError_frame (e : GqlError) :
  cls (enrichError e) = cls e ∧ message (enrichError e) = message e ∧
  stack (enrichError e) = stack e ∧ nodes (enrichError e) = nodes e ∧
  source (enrichError e) = source e ∧ positions (enrichError e) = positions e ∧
  path (enrichError e) = path e ∧ originalError (enrichError e) = originalError e.
Proof. done. Qed.


(** An error that has a (truthy) code of its own is left as it is. *)
Lemma enrichError_coded (e : GqlError) :
  truthy (extensions_code e) = true → enrichError e = e.
Proof.
  destruct e as [c m st nd sr ps pt oe [x|]]; unfold enrichError, extensions_code;
    cbn; [|done].
  intros Hc. rewrite Hc. unfold with_extensions. cbn. do 2 f_equal.
  apply insert_id. destruct (x !! "code"); [done|]. discriminate Hc.
Qed.


Lemma passThroughError_code (error : GqlError) :
  extensions_code (passThroughError error) = JStr APPSYNC_PASSTHROUGH_ERROR.
Proof. unfold extensions_code. cbn. unfold spread_with_code. by rewrite lookup_insert_eq. Qed.

Lemma passThroughError_is_passthrough (error : GqlError) :
  is_passthrough (passThroughError error) = true.
Proof. unfold is_passthrough. by rewrite passThroughError_code. Qed.

(** What the caller sees of a backend error: the message, the path and the
    fields the locations are derived from are those of the backend's error, the
    stack is gone, and so is the whole [extensions] object. *)
Lemma backend_error_formatted (error : GqlError) :
  formatError (enrichError (passThroughError error)) =
  mkError GraphQLErrorC (message error) None (nodes error) (source error)
    (positions error) (path error) (originalError error) None.
Proof.
  rewrite enrichError_coded by by rewrite passThroughError_code.
  rewrite formatError_cases, passThroughError_is_passthrough. done.
Qed.

(** A backend error is never sent to the error-tracking service. *)
Lemma backend_error_not_reportable (error : GqlError) :
  reportable (passThroughError error) = false.
Proof. unfold reportable. by rewrite passThroughError_is_passthrough. Qed.

Lemma backend_errors_not_reportable (errs : list GqlError) :
  List.filter reportable (map passThroughError errs) = [].
Proof.
  induction errs as [|e es IH]; [done|].
  cbn [map List.filter]. by rewrite backend_error_not_reportable.
Qed.

Lemma transformResult_errors (r : RawResult) :
  errors (transformResult r) = map passThroughError <$> errors r.
Proof. by destruct r as [d [es|]]. Qed.

(** ** The context and [requestDidStart] *)

(** A context holds an affinity or a context error, never both, never neither. *)
Lemma context_exclusive (t : Table) (authorization : option string) :
  (is_Some (affinity (context t authorization)) ∧
   contextError (context t authorization) = None) ∨
  (affinity (context t authorization) = None ∧
   is_Some (contextError (context t authorization))).
Proof. unfold context. destruct (context_try t authorization); eauto. Qed.

(** An affinity that made it into the context is truthy. *)
Lemma context_affinity_truthy (t : Table) (authorization : option string) (a : JsVal) :
  affinity (context t authorization) = Some a → truthy a = true.
Proof.
  unfold context, context_try. destruct authorization as [apiKey|]; [|done].
  destruct (negb (truthy (JStr apiKey))); [done|].
  destruct (getAffinityFromApiKey t (trim apiKey)) as [e|aff]; [done|].
  destruct (truthy aff) eqn:Ht; cbn; [|done]. by intros [= <-].
Qed.

Lemma requestDidStart_ok (rc : RequestContext) :
  contextError (rc_context rc) = None →
  ∃ tr, requestDidStart rc = (tr, Returned (mkListener false false false)) ∧
        captured tr = [] ∧ flushes tr = 0 ∧ delegations tr = [].
Proof.
  intros Hc. unfold requestDidStart. rewrite Hc.
  destruct (affinity (rc_context rc)) as [a|]; [destruct (truthy a)|];
    eexists; (split; [reflexivity|done]).
Qed.

(** An [AuthenticationError] in the context is thrown as it is, and the service
    is not called. *)
Lemma requestDidStart_authentication (rc : RequestContext) (err : GqlError) :
  contextError (rc_context rc) = Some err →
  instanceof err AuthenticationErrorC = true →
  ∃ tr, requestDidStart rc = (tr, Thrown err) ∧
        captured tr = [] ∧ flushes tr = 0 ∧ delegations tr = [].
Proof.
  intros Hc Hi. unfold requestDidStart. rewrite Hc, Hi.
  eexists; (split; [reflexivity|done]).
Qed.

(** Any other context error is sent to the service, the service is flushed, and
    a new error with the generic message is thrown in its place. *)
Lemma requestDidStart_other (rc : RequestContext) (err : GqlError) :
  contextError (rc_context rc) = Some err →
  instanceof err AuthenticationErrorC = false →
  ∃ tr, requestDidStart rc = (tr, Thrown (Error_new "Internal Server Error")) ∧
        captured tr = [err] ∧ flushes tr = 1 ∧ delegations tr = [].
Proof.
  intros Hc Hi. unfold requestDidStart. rewrite Hc, Hi.
  eexists; (split; [reflexivity|done]).
Qed.

(** ** Execution *)

Lemma executeField_trace (executor : Executor) (ctx : Context)
    (sel : GatewayField * gmap string JsVal) :
  (executeField executor ctx sel).1 = [DelegateToSchema (resolver sel.1 sel.2 ctx)].
Proof.
  unfold executeField, delegateToSchema. cbn.
  by destruct (executor (resolver sel.1 sel.2 ctx)).
Qed.

Lemma executeFields_trace (executor : Executor) (ctx : Context)
    (sels : list (GatewayField * gmap string JsVal)) :
  (executeFields executor ctx sels).1 =
  map (λ sel, DelegateToSchema (resolver sel.1 sel.2 ctx)) sels.
Proof.
  induction sels as [|sel rest IH]; [done|].
  cbn [executeFields map]. pose proof (executeField_trace executor ctx sel) as Hs.
  destruct (executeField executor ctx sel) as [tr es].
  destruct (executeFields executor ctx rest) as [tr' es'].
  cbn in *. by rewrite Hs, IH.
Qed.

Lemma executeFields_quiet (executor : Executor) (ctx : Context)
    (sels : list (GatewayField * gmap string JsVal)) :
  captured (executeFields executor ctx sels).1 = [] ∧
  flushes (executeFields executor ctx sels).1 = 0 ∧
  delegations (executeFields executor ctx sels).1 =
    map (λ sel, resolver sel.1 sel.2 ctx) sels.
Proof.
  rewrite executeFields_trace. induction sels as [|sel rest [IH1 [IH2 IH3]]]; [done|].
  cbn [map]. split_and!.
  - exact IH1.
  - exact IH2.
  - change (delegations (DelegateToSchema ?d :: ?t)) with (d :: delegations t).
    by rewrite IH3.
Qed.

(** Every field a resolver forwards goes through the pass-through transform. *)
Lemma resolver_transforms (f : GatewayField) (a : gmap string JsVal) (ctx : Context) :
  transforms (resolver f a ctx) = [transformResult].
Proof. by destruct f. Qed.

(** The errors a field contributes when the backend answers with [errs]. *)
Lemma executeField_backend_errors (executor : Executor) (ctx : Context)
    (sel : GatewayField * gmap string JsVal) (d : JsVal) (errs : list GqlError) :
  executor (resolver sel.1 sel.2 ctx) = inr (mkResult d (Some errs)) →
  (executeField executor ctx sel).2 = map passThroughError errs.
Proof.
  intros He. unfold executeField, delegateToSchema. cbn. rewrite He.
  by rewrite resolver_transforms.
Qed.


(** ** The pipeline *)

Lemma processRequest_thrown (t : Table) (executor : Executor) (r : Incoming)
    (tr : list Event) (e : GqlError) :
  requestDidStart
    (mkRequestContext (in_request r) (context t (authorization r)) [] JUndefined [])
  = (tr, Thrown e) →
  processRequest t executor r = (tr, [formatError (enrichError e)]).
Proof. intros H. unfold processRequest. cbv zeta. by rewrite H. Qed.

Lemma processRequest_parse_error (t : Table) (executor : Executor) (r : Incoming)
    (tr : list Event) (l0 : Listener) (e : GqlError) :
  let rc := mkRequestContext (in_request r) (context t (authorization r)) [] JUndefined in
  requestDidStart (rc []) = (tr, Returned l0) →
  in_parsingError r = Some e →
  processRequest t executor r =
  (tr ++ (didEncounterErrors (rc [e]) (parsingDidEnd (Some e) l0)).1,
   [formatError (enrichError e)]).
Proof. intros rc H Hp. subst rc. unfold processRequest. cbv zeta. by rewrite H, Hp. Qed.

(** A request that reaches execution: its response, what it sends to the service
    and what it delegates. *)
Lemma processRequest_executed (t : Table) (executor : Executor) (r : Incoming) :
  contextError (context t (authorization r)) = None →
  in_parsingError r = None →
  in_validationErrors r = [] →
  let ctx := context t (authorization r) in
  let errs := (executeFields executor ctx (in_selection r)).2 in
  (processRequest t executor r).2 = map (λ e, formatError (enrichError e)) errs ∧
  captured (processRequest t executor r).1 =
    (match in_operationName r with
     | JUndefined => []
     | _ => List.filter reportable errs
     end) ∧
  delegations (processRequest t executor r).1 =
    map (λ sel, resolver sel.1 sel.2 ctx) (in_selection r).
Proof.
  intros Hc Hp Hv ctx errs.
  destruct (requestDidStart_ok
              (mkRequestContext (in_request r) ctx [] JUndefined []) Hc)
    as (tr & Hs & Hcap & _ & Hdel).
  unfold processRequest. cbv zeta. fold ctx. rewrite Hs, Hp, Hv.
  destruct (executeFields_quiet executor ctx (in_selection r)) as (Hx1 & _ & Hx3).
  subst errs. destruct (executeFields executor ctx (in_selection r)) as [trx es].
  cbn [fst snd] in *. destruct es as [|e es].
  - cbn [fst snd map]. rewrite captured_app, delegations_app, Hcap, Hdel, Hx1, Hx3.
    split_and!; [done| |done]. by destruct (in_operationName r).
  - unfold sendErrors. cbn [fst snd rc_errors].
    rewrite !captured_app, !delegations_app, Hcap, Hdel, Hx1, Hx3.
    rewrite didEncounterErrors_captured, didEncounterErrors_delegations.
    rewrite app_nil_r. split_and!; [done| |done].
    cbn [rc_errors app]. unfold didResolveOperation, any_flag. cbn.
    by destruct (in_operationName r).
Qed.

(** ** Backend errors *)

(** Whatever the backend's errors are, the caller receives them with their
    message, path and location fields, never with the generic message, and none
    of them is sent to the error-tracking service. *)
Lemma backend_errors_pass (t : Table) (executor : Executor) (r : Incoming)
    (f : GatewayField) (a : gmap string JsVal) (d : JsVal) (errs : list GqlError) :
  contextError (context t (authorization r)) = None →
  in_parsingError r = None →
  in_validationErrors r = [] →
  in_selection r = [(f, a)] →
  executor (resolver f a (context t (authorization r))) = inr (mkResult d (Some errs)) →
  (processRequest t executor r).2 =
    map (λ e, mkError GraphQLErrorC (message e) None (nodes e) (source e)
                (positions e) (path e) (originalError e) None) errs ∧
  captured (processRequest t executor r).1 = [].
Proof.
  intros Hc Hp Hv Hs He.
  destruct (processRequest_executed t executor r Hc Hp Hv) as (Hout & Hcap & _).
  rewrite Hs in Hout, Hcap. cbn [executeFields] in Hout, Hcap.
  pose proof (executeField_backend_errors executor (context t (authorization r))
                (f, a) d errs He) as Hf.
  destruct (executeField executor (context t (authorization r)) (f, a)) as [tr es].
  cbn [fst snd] in *. subst es. rewrite app_nil_r in Hout, Hcap. split.
  - rewrite Hout, map_map. apply map_ext. intros e. apply backend_error_formatted.
  - rewrite Hcap.
    rewrite backend_errors_not_reportable. by destruct (in_operationName r).
Qed.

(** C1, at the backend error [Sample.backend_error]: the backend answers
    [sayHello] with an error that carries the extension [errorType].  The caller
    receives the error with its message and path and without the generic
    message, and nothing is sent to the error-tracking service; but the error
    arrives with no extensions at all: [formatError] deletes the whole
    [extensions] object, not only the marker [code]. *)
Theorem C1_backend_error_extensions_dropped :
  let out :=
    processRequest Sample.table Sample.backend_rejects
      (Sample.request (Some "K") JNull) in
  extensions Sample.backend_error = Some {[ "errorType" := JStr "Unauthorized" ]} ∧
  extensions (passThroughError Sample.backend_error) =
    Some {[ "errorType" := JStr "Unauthorized";
            "code" := JStr "APPSYNC_PASSTHROUGH_ERROR" ]} ∧
  extensions (formatError (passThroughError Sample.backend_error)) = None ∧
  out.2 = [mkError GraphQLErrorC "Not Authorized" None JUndefined JUndefined
             JUndefined (JArr [JStr "sayHello"]) JUndefined None] ∧
  captured out.1 = [].
Proof. vm_compute. done. Qed.

(** ** Local exceptions *)




(** ** Identity injection *)

(** The claim of C3 names the extra field-argument [identity]; the resolvers
    call it [affinity].  For the credential [K] of [dev-42] and
    [sayHello(name: x)], the forwarded arguments have no [identity]. *)
Lemma C3_counterexample :
  let ctx := context Sample.table (Some "K") in
  affinity ctx = Some (JStr "dev-42") ∧
  args (sayHello {[ "name" := JStr "x" ]} ctx) !! "identity" = None ∧
  args (sayHello {[ "name" := JStr "x" ]} ctx)
    ≠ {[ "name" := JStr "x"; "identity" := JStr "dev-42" ]}.
Proof.
  split_and!; [by vm_compute..|].
  intros H. apply (f_equal (.!! "identity")) in H. vm_compute in H. discriminate H.
Qed.

(** C3, amended: for every delegated operation, the forwarded arguments are the
    caller's arguments with the caller's affinity under the name [affinity]: an
    [affinity] argument of the caller is replaced, every other argument is
    forwarded as it is, and when the caller supplied no [affinity] the forwarded
    arguments are exactly one more.  Every forwarded value is a value the caller
    supplied or the affinity, so the credential is forwarded only if the caller
    supplied it as an argument or it is its own affinity. *)
Theorem C3_affinity_injected (t : Table) (authorization : option string)
    (tag : JsVal) (f : GatewayField) (a : gmap string JsVal) :
  affinity (context t authorization) = Some tag →
  args (resolver f a (context t authorization)) = <["affinity" := tag]> a ∧
  (∀ k, k ≠ "affinity" →
        args (resolver f a (context t authorization)) !! k = a !! k) ∧
  (a !! "affinity" = None →
   size (args (resolver f a (context t authorization))) = S (size a)) ∧
  (∀ k v, args (resolver f a (context t authorization)) !! k = Some v →
          a !! k = Some v ∨ (k = "affinity" ∧ v = tag)) ∧
  (∀ apiKey k, authorization = Some apiKey →
     args (resolver f a (context t authorization)) !! k = Some (JStr apiKey) →
     a !! k = Some (JStr apiKey) ∨ tag = JStr apiKey).
Proof.
  intros Ht.
  assert (args (resolver f a (context t authorization)) = <["affinity" := tag]> a)
    as Hargs.
  { destruct f; cbn; unfold with_affinity; by rewrite Ht. }
  rewrite Hargs. split_and!.
  - done.
  - intros k Hk. by rewrite lookup_insert_ne.
  - intros Ha. by apply map_size_insert_None.
  - intros k v. destruct (decide (k = "affinity")) as [->|Hk].
    + rewrite lookup_insert_eq. intros [= <-]. by right.
    + rewrite lookup_insert_ne by done. by left.
  - intros apiKey k _. destruct (decide (k = "affinity")) as [->|Hk].
    + rewrite lookup_insert_eq. intros [= <-]. by right.
    + rewrite lookup_insert_ne by done. by left.
Qed.

Lemma C3_affinity_injected_witness :
  args (resolver SayHelloField {[ "name" := JStr "x" ]}
          (context Sample.table (Some "K")))
  = <["affinity" := JStr "dev-42"]> {[ "name" := JStr "x" ]}.
Proof.
  apply (C3_affinity_injected Sample.table (Some "K") (JStr "dev-42") SayHelloField
           {[ "name" := JStr "x" ]}).
  vm_compute. reflexivity.
Defined.

(** ** Authentication faults *)

Lemma apiKey_truthy (apiKey : string) :
  apiKey ≠ "" → negb (truthy (JStr apiKey)) = false.
Proof.
  intros Hk. cbn. apply negb_false_iff, negb_true_iff. by apply String.eqb_neq.
Qed.

Lemma context_missing (t : Table) :
  context t None = mkContext None (Some (AuthenticationError "Missing authorization header")).
Proof. done. Qed.

(** A credential whose lookup yields no truthy affinity. *)
Lemma context_invalid (t : Table) (apiKey : string) :
  apiKey ≠ "" →
  lookup_fault t = None →
  truthy (default JUndefined (rows t !! trim apiKey ≫= (.!! "affinity"))) = false →
  getAffinityFromApiKey t (trim apiKey) = inr JNull ∧
  context t (Some apiKey) =
    mkContext None (Some (AuthenticationError "Invalid authorization header")).
Proof.
  intros Hk Hf Hrow.
  assert (getAffinityFromApiKey t (trim apiKey) = inr JNull) as Hg.
  { unfold getAffinityFromApiKey, ddbDocClient_get. rewrite Hf. cbn [Item].
    unfold or_null. by rewrite Hrow. }
  split; [done|]. unfold context, context_try.
  by rewrite (apiKey_truthy _ Hk), Hg.
Qed.

(** The response to a request whose context holds an [AuthenticationError]. *)
Lemma authentication_fault_response (t : Table) (executor : Executor) (r : Incoming)
    (msg : string) :
  context t (authorization r) = mkContext None (Some (AuthenticationError msg)) →
  (processRequest t executor r).2 = [formatError (AuthenticationError msg)] ∧
  delegations (processRequest t executor r).1 = [] ∧
  captured (processRequest t executor r).1 = [].
Proof.
  intros Hctx.
  destruct (requestDidStart_authentication
              (mkRequestContext (in_request r) (context t (authorization r)) []
                 JUndefined [])
              (AuthenticationError msg)) as (tr & Hs & Hcap & _ & Hdel).
  { cbn. by rewrite Hctx. }
  { done. }
  rewrite (processRequest_thrown _ _ _ _ _ Hs). cbn [fst snd].
  by rewrite enrichError_coded.
Qed.

Lemma ApolloError_code_truthy (c : ErrorClass) (name msg code : string)
    (ext : option (gmap string JsVal)) :
  code ≠ "" → truthy (extensions_code (ApolloError_new c name msg code ext)) = true.
Proof.
  intros H0. unfold extensions_code. cbn. unfold spread_with_code.
  rewrite lookup_insert_eq. cbn. apply negb_true_iff. by apply String.eqb_neq.
Qed.

(** What [formatError] makes of apollo-server's coded errors: the message and
    the extensions stay, without the [exception] entry; the stack goes. *)
Lemma formatError_ApolloError (c : ErrorClass) (name msg code : string)
    (ext : option (gmap string JsVal)) :
  code ≠ "" → code ≠ APPSYNC_PASSTHROUGH_ERROR → code ≠ INTERNAL_SERVER_ERROR →
  formatError (enrichError (ApolloError_new c name msg code ext)) =
  mkError c msg None JUndefined JUndefined JUndefined JUndefined JUndefined
    (Some (delete "exception" (spread_with_code ext code))).
Proof.
  intros H0 H1 H2.
  assert (extensions_code (ApolloError_new c name msg code ext) = JStr code) as Hcode.
  { unfold extensions_code. cbn. unfold spread_with_code. by rewrite lookup_insert_eq. }
  rewrite enrichError_coded.
  2: { rewrite Hcode. cbn. apply negb_true_iff. by apply String.eqb_neq. }
  rewrite formatError_cases. unfold is_passthrough. rewrite Hcode. cbn.
  apply String.eqb_neq in H1, H2. by rewrite H1, H2.
Qed.

(** The claim of C4 quotes the messages in lower case; the messages of the code
    begin with a capital letter. *)
Lemma C4_counterexample :
  let missing :=
    processRequest Sample.table Sample.backend_answers (Sample.request None JNull) in
  let invalid :=
    processRequest Sample.table Sample.backend_answers
      (Sample.request (Some "Z") JNull) in
  rows Sample.table !! "Z" = None ∧
  (message <$> missing.2) = ["Missing authorization header"] ∧
  (message <$> missing.2) ≠ ["missing authorization header"] ∧
  (message <$> invalid.2) = ["Invalid authorization header"] ∧
  (message <$> invalid.2) ≠ ["invalid authorization header"].
Proof. vm_compute. split_and!; done. Qed.

(** C4, amended: a request without the credential header is answered with the
    one error [AuthenticationError], message [Missing authorization header]; a
    request whose credential, trimmed, has no item in the table is answered with
    the one error [AuthenticationError], message [Invalid authorization header].
    In both cases no resolver delegates anything and nothing is sent to the
    error-tracking service. *)
Theorem C4_authentication_faults (t : Table) (executor : Executor) (r : Incoming) :
  (authorization r = None →
   (message <$> (processRequest t executor r).2) = ["Missing authorization header"] ∧
   (cls <$> (processRequest t executor r).2) = [AuthenticationErrorC] ∧
   delegations (processRequest t executor r).1 = [] ∧
   captured (processRequest t executor r).1 = []) ∧
  (∀ apiKey,
     authorization r = Some apiKey →
     apiKey ≠ "" →
     lookup_fault t = None →
     rows t !! trim apiKey = None →
     (message <$> (processRequest t executor r).2) = ["Invalid authorization header"] ∧
     (cls <$> (processRequest t executor r).2) = [AuthenticationErrorC] ∧
     delegations (processRequest t executor r).1 = [] ∧
     captured (processRequest t executor r).1 = []).
Proof.
  split.
  - intros Ha.
    destruct (authentication_fault_response t executor r
                "Missing authorization header") as (Hout & Hdel & Hcap).
    { by rewrite Ha. }
    rewrite Hout. done.
  - intros apiKey Ha Hk Hf Hrow.
    destruct (context_invalid t apiKey Hk Hf) as [_ Hctx].
    { by rewrite Hrow. }
    destruct (authentication_fault_response t executor r
                "Invalid authorization header") as (Hout & Hdel & Hcap).
    { by rewrite Ha. }
    rewrite Hout. done.
Qed.

Lemma C4_authentication_faults_witness :
  (message <$> (processRequest Sample.table Sample.backend_answers
                  (Sample.request None JNull)).2) = ["Missing authorization header"] ∧
  (message <$> (processRequest Sample.table Sample.backend_answers
                  (Sample.request (Some "Z") JNull)).2) = ["Invalid authorization header"].
Proof.
  split.
  - apply (C4_authentication_faults Sample.table Sample.backend_answers
             (Sample.request None JNull)). reflexivity.
  - apply (proj2 (C4_authentication_faults Sample.table Sample.backend_answers
                    (Sample.request (Some "Z") JNull)) "Z");
      [reflexivity | discriminate | reflexivity | vm_compute; reflexivity].
Defined.

(** ** The three flags *)





(** ** End-of-request reporting *)

(** C6: when one of the three flags is set, [didEncounterErrors] sends nothing
    to the error-tracking service and does not flush it, whatever the error list
    holds; otherwise it sends every error of the list except those with the
    pass-through code and the [UserInputError] and [SyntaxError] instances, in
    order, and flushes once.  A query that does not parse is answered with its
    error, and nothing is sent to the service. *)
Theorem C6_reporting_rule (rc : RequestContext) (l : Listener)
    (t : Table) (executor : Executor) (r : Incoming) (e : GqlError) :
  (graphqlParsingFailure l || graphqlValidationFailure l
   || graphqlUnknownOperationName l = true →
   captured (didEncounterErrors rc l).1 = [] ∧
   flushes (didEncounterErrors rc l).1 = 0) ∧
  (graphqlParsingFailure l || graphqlValidationFailure l
   || graphqlUnknownOperationName l = false →
   captured (didEncounterErrors rc l).1 =
     List.filter (λ err, negb (is_passthrough err) && negb (is_bad_user_input err))
       (rc_errors rc) ∧
   flushes (didEncounterErrors rc l).1 = 1) ∧
  (contextError (context t (authorization r)) = None →
   in_parsingError r = Some e →
   (processRequest t executor r).2 = [formatError (enrichError e)] ∧
   captured (processRequest t executor r).1 = [] ∧
   flushes (processRequest t executor r).1 = 0).
Proof.
  pose proof (didEncounterErrors_captured rc l) as Hcap.
  pose proof (didEncounterErrors_flushes rc l) as Hfl.
  unfold any_flag in Hcap, Hfl. split_and!.
  - intros Hflag. by rewrite Hflag in Hcap, Hfl.
  - intros Hflag. by rewrite Hflag in Hcap, Hfl.
  - intros Hc Hp.
    destruct (requestDidStart_ok
                (mkRequestContext (in_request r) (context t (authorization r)) []
                   JUndefined []) Hc) as (tr & Hs & Hcap0 & Hfl0 & _).
    rewrite (processRequest_parse_error t executor r tr _ e Hs Hp). cbn [fst snd].
    rewrite captured_app, flushes_app, didEncounterErrors_captured,
      didEncounterErrors_flushes, Hcap0, Hfl0.
    done.
Qed.

Lemma C6_reporting_rule_witness :
  let rc :=
    mkRequestContext Sample.hello (context Sample.table (Some "K")) [] JNull
      [Sample.transport_error; passThroughError Sample.backend_error;
       Sample.syntax_error; Sample.coded_error] in
  let malformed :=
    processRequest Sample.table Sample.backend_answers (Sample.malformed (Some "K")) in
  (captured (didEncounterErrors rc (mkListener false true false)).1 = [] ∧
   flushes (didEncounterErrors rc (mkListener false true false)).1 = 0) ∧
  (captured (didEncounterErrors rc (mkListener false false false)).1 =
     [Sample.transport_error; Sample.coded_error] ∧
   flushes (didEncounterErrors rc (mkListener false false false)).1 = 1) ∧
  (malformed.2 = [formatError (enrichError Sample.syntax_error)] ∧
   captured malformed.1 = [] ∧
   flushes malformed.1 = 0).
Proof.
  intros rc malformed. split; [|split].
  - apply (proj1 (C6_reporting_rule rc (mkListener false true false)
                    Sample.table Sample.backend_answers (Sample.malformed (Some "K"))
                    Sample.syntax_error)).
    reflexivity.
  - apply (proj1 (proj2 (C6_reporting_rule rc (mkListener false false false)
                    Sample.table Sample.backend_answers (Sample.malformed (Some "K"))
                    Sample.syntax_error))).
    reflexivity.
  - apply (proj2 (proj2 (C6_reporting_rule rc (mkListener false false false)
                    Sample.table Sample.backend_answers (Sample.malformed (Some "K"))
                    Sample.syntax_error)));
      vm_compute; reflexivity.
Defined.

(** ** A lookup that fails *)

(** The claim of C7 fails when the table rejects the lookup with an error that
    is not an [AuthenticationError]: the error is sent to the error-tracking
    service and the caller receives the generic internal error. *)
Lemma C7_counterexample :
  let out :=
    processRequest Sample.table_down Sample.backend_answers
      (Sample.request (Some "K") JNull) in
  contextError (context Sample.table_down (Some "K")) = Some Sample.lookup_error ∧
  instanceof Sample.lookup_error AuthenticationErrorC = false ∧
  captured out.1 = [Sample.lookup_error] ∧
  captured out.1 ≠ [] ∧
  (message <$> out.2) = ["Internal Server Error"] ∧
  (cls <$> out.2) = [ErrorC] ∧
  (cls <$> out.2) ≠ [AuthenticationErrorC].
Proof. vm_compute. split_and!; done. Qed.

(** C7, amended: when the lookup rejects with an error that is not an
    [AuthenticationError], that error becomes the context error, is sent to the
    error-tracking service once, the service is flushed once, no resolver
    delegates anything, and the caller receives one error with the message
    [Internal Server Error], without stack and without extensions. *)
Theorem C7_lookup_failure_reported (t : Table) (executor : Executor) (r : Incoming)
    (apiKey : string) (fault : GqlError) :
  authorization r = Some apiKey →
  apiKey ≠ "" →
  lookup_fault t = Some fault →
  instanceof fault AuthenticationErrorC = false →
  contextError (context t (authorization r)) = Some fault ∧
  captured (processRequest t executor r).1 = [fault] ∧
  flushes (processRequest t executor r).1 = 1 ∧
  delegations (processRequest t executor r).1 = [] ∧
  (processRequest t executor r).2 =
    [mkError ErrorC "Internal Server Error" None JUndefined JUndefined JUndefined
       JUndefined JUndefined None].
Proof.
  intros Ha Hk Hf Hi.
  assert (context t (authorization r) = mkContext None (Some fault)) as Hctx.
  { rewrite Ha. unfold context, context_try, getAffinityFromApiKey, ddbDocClient_get.
    by rewrite (apiKey_truthy _ Hk), Hf. }
  destruct (requestDidStart_other
              (mkRequestContext (in_request r) (context t (authorization r)) []
                 JUndefined []) fault) as (tr & Hs & Hcap & Hfl & Hdel).
  { cbn. by rewrite Hctx. }
  { done. }
  rewrite (processRequest_thrown _ _ _ _ _ Hs), Hctx. cbn [fst snd contextError].
  split_and!; done.
Qed.

Lemma C7_lookup_failure_reported_witness :
  contextError (context Sample.table_down (Some "K")) = Some Sample.lookup_error ∧
  captured (processRequest Sample.table_down Sample.backend_answers
              (Sample.request (Some "K") JNull)).1 = [Sample.lookup_error] ∧
  flushes (processRequest Sample.table_down Sample.backend_answers
             (Sample.request (Some "K") JNull)).1 = 1 ∧
  delegations (processRequest Sample.table_down Sample.backend_answers
                 (Sample.request (Some "K") JNull)).1 = [] ∧
  (processRequest Sample.table_down Sample.backend_answers
     (Sample.request (Some "K") JNull)).2 =
    [mkError ErrorC "Internal Server Error" None JUndefined JUndefined JUndefined
       JUndefined JUndefined None].
Proof.
  apply (C7_lookup_failure_reported Sample.table_down Sample.backend_answers
           (Sample.request (Some "K") JNull) "K" Sample.lookup_error);
    [reflexivity | discriminate | reflexivity | reflexivity].
Defined.

(** ** Authentication and caller-input faults at the response boundary *)

(** The claim of C8 fails on the extensions: [formatError] deletes them only for
    the pass-through and internal codes, so an [AuthenticationError] and a
    [SyntaxError] reach the caller with their [code]. *)
Lemma C8_counterexample :
  extensions (formatError (AuthenticationError "Missing authorization header"))
    = Some {[ "code" := JStr "UNAUTHENTICATED" ]} ∧
  extensions (formatError (enrichError (AuthenticationError "Missing authorization header")))
    = Some {[ "code" := JStr "UNAUTHENTICATED" ]} ∧
  extensions (formatError (enrichError (AuthenticationError "Missing authorization header")))
    ≠ None ∧
  extensions (formatError (enrichError Sample.syntax_error))
    = Some {[ "code" := JStr "GRAPHQL_PARSE_FAILED" ]} ∧
  (extensions <$> (processRequest Sample.table Sample.backend_answers
                     (Sample.request None JNull)).2)
    = [Some {[ "code" := JStr "UNAUTHENTICATED" ]}].
Proof. vm_compute. split_and!; done. Qed.

(** C8, amended: an [AuthenticationError], a [UserInputError] and a
    [SyntaxError] reach the caller with their message unchanged and without
    stack; their extensions are kept, [code] included, except for the
    [exception] entry. *)
Theorem C8_disclosed_faults (msg : string) (ext : option (gmap string JsVal)) :
  (enrichError (AuthenticationError msg) = AuthenticationError msg ∧
   enrichError (SyntaxError msg) = SyntaxError msg ∧
   enrichError (UserInputError msg ext) = UserInputError msg ext) ∧
  formatError (enrichError (AuthenticationError msg)) =
    mkError AuthenticationErrorC msg None JUndefined JUndefined JUndefined JUndefined
      JUndefined (Some {[ "code" := JStr "UNAUTHENTICATED" ]}) ∧
  formatError (enrichError (SyntaxError msg)) =
    mkError SyntaxErrorC msg None JUndefined JUndefined JUndefined JUndefined
      JUndefined (Some {[ "code" := JStr "GRAPHQL_PARSE_FAILED" ]}) ∧
  formatError (enrichError (UserInputError msg ext)) =
    mkError UserInputErrorC msg None JUndefined JUndefined JUndefined JUndefined
      JUndefined
      (Some (delete "exception" (<["code" := JStr "BAD_USER_INPUT"]> (default ∅ ext)))) ∧
  extensions_code (formatError (enrichError (UserInputError msg ext)))
    = JStr "BAD_USER_INPUT" ∧
  (extensions (formatError (enrichError (UserInputError msg ext))))
    ≫= (.!! "exception") = None.
Proof.
  unfold AuthenticationError, SyntaxError, UserInputError.
  rewrite !formatError_ApolloError by done. split; [|split_and!].
  - split_and!; apply enrichError_coded, ApolloError_code_truthy; done.
  - done.
  - done.
  - done.
  - unfold extensions_code. cbn. unfold spread_with_code.
    by rewrite lookup_delete_ne, lookup_insert_eq.
  - cbn. by rewrite lookup_delete_eq.
Qed.

(** ** A stored credential without an affinity *)

(** The table matters to a request only through the context it yields. *)
Lemma processRequest_context (t t' : Table) (executor : Executor) (r : Incoming) :
  context t (authorization r) = context t' (authorization r) →
  processRequest t executor r = processRequest t' executor r.
Proof. intros H. unfold processRequest. by rewrite H. Qed.

(** C10: when the item stored for the (trimmed) credential has a falsy affinity
    (an empty string, a missing attribute, or any other falsy value),
    [getAffinityFromApiKey] returns [null] and the request is answered with the
    [AuthenticationError] [Invalid authorization header], without any
    delegation, exactly as it is when the table has no item for the
    credential. *)
Theorem C10_falsy_affinity_is_invalid (t : Table) (executor : Executor) (r : Incoming)
    (apiKey : string) (item : gmap string JsVal) :
  authorization r = Some apiKey →
  apiKey ≠ "" →
  lookup_fault t = None →
  rows t !! trim apiKey = Some item →
  truthy (default JUndefined (item !! "affinity")) = false →
  getAffinityFromApiKey t (trim apiKey) = inr JNull ∧
  contextError (context t (authorization r)) =
    Some (AuthenticationError "Invalid authorization header") ∧
  (message <$> (processRequest t executor r).2) = ["Invalid authorization header"] ∧
  (cls <$> (processRequest t executor r).2) = [AuthenticationErrorC] ∧
  delegations (processRequest t executor r).1 = [] ∧
  processRequest t executor r =
    processRequest (mkTable None (delete (trim apiKey) (rows t))) executor r.
Proof.
  intros Ha Hk Hf Hrow Hfalsy.
  destruct (context_invalid t apiKey Hk Hf) as [Hg Hctx].
  { by rewrite Hrow. }
  destruct (context_invalid (mkTable None (delete (trim apiKey) (rows t))) apiKey Hk)
    as [_ Hctx']; [done| |].
  { cbn. by rewrite lookup_delete_eq. }
  destruct (authentication_fault_response t executor r
              "Invalid authorization header") as (Hout & Hdel & _).
  { by rewrite Ha. }
  split_and!; try done.
  - by rewrite Ha, Hctx.
  - by rewrite Hout.
  - by rewrite Hout.
  - apply processRequest_context. by rewrite Ha, Hctx, Hctx'.
Qed.

Lemma C10_falsy_affinity_is_invalid_witness :
  getAffinityFromApiKey Sample.table_empty_affinity (trim "K") = inr JNull ∧
  contextError (context Sample.table_empty_affinity (Some "K")) =
    Some (AuthenticationError "Invalid authorization header") ∧
  (message <$> (processRequest Sample.table_empty_affinity Sample.backend_answers
                  (Sample.request (Some "K") JNull)).2)
    = ["Invalid authorization header"] ∧
  (cls <$> (processRequest Sample.table_empty_affinity Sample.backend_answers
              (Sample.request (Some "K") JNull)).2) = [AuthenticationErrorC] ∧
  delegations (processRequest Sample.table_empty_affinity Sample.backend_answers
                 (Sample.request (Some "K") JNull)).1 = [] ∧
  processRequest Sample.table_empty_affinity Sample.backend_answers
    (Sample.request (Some "K") JNull) =
  processRequest (mkTable None (delete (trim "K") (rows Sample.table_empty_affinity)))
    Sample.backend_answers (Sample.request (Some "K") JNull).
Proof.
  apply (C10_falsy_affinity_is_invalid Sample.table_empty_affinity
           Sample.backend_answers (Sample.request (Some "K") JNull) "K"
           {[ "apiKey" := JStr "K"; "affinity" := JStr "" ]});
    [reflexivity | discriminate | reflexivity | vm_compute; reflexivity
    | vm_compute; reflexivity].
Defined.

(** ** The cached handler *)

Import ColdStart.

(** Once [apolloHandler] is set, no step starts a discovery or clears it. *)
Lemma step_keeps_handler (ok : nat → bool) (s : System) (n h : nat) :
  apolloHandler (process s) = Some h →
  discoveries (process (step ok s n)) = discoveries (process s) ∧
  is_Some (apolloHandler (process (step ok s n))).
Proof.
  intros Hh. unfold step. destruct (invocations s !! n) as [i|]; [|by rewrite Hh].
  destruct i as [|k|u]; cbn.
  - rewrite Hh. cbn. by rewrite Hh.
  - destruct (ok k); cbn; [done|by rewrite Hh].
  - by rewrite Hh.
Qed.

Lemma run_keeps_handler (ok : nat → bool) (schedule : list nat) (s : System) (h : nat) :
  apolloHandler (process s) = Some h →
  discoveries (process (run ok schedule s)) = discoveries (process s) ∧
  is_Some (apolloHandler (process (run ok schedule s))).
Proof.
  revert s h. induction schedule as [|n rest IH]; intros s h Hh.
  - cbn. by rewrite Hh.
  - cbn. destruct (step_keeps_handler ok s n h Hh) as [Hd [h' Hh']].
    destruct (IH (step ok s n) h' Hh') as [Hd' Hs]. unfold run in Hd', Hs.
    by rewrite Hd', Hd.
Qed.

Lemma step_entered_warm (ok : nat → bool) (h d : nat) (pre post : list Invocation) :
  step ok (mkSystem (mkProcess (Some h) d) (pre ++ Entered :: post)) (length pre)
  = mkSystem (mkProcess (Some h) d) (pre ++ Settled (Some h) :: post).
Proof.
  unfold step. cbn [invocations process].
  rewrite list_lookup_middle by done. cbn.
  by rewrite insert_app_r_alt, Nat.sub_diag.
Qed.

Lemma step_settled (ok : nat → bool) (p : Process) (u : option nat)
    (pre post : list Invocation) :
  step ok (mkSystem p (pre ++ Settled u :: post)) (length pre)
  = mkSystem p (pre ++ Settled u :: post).
Proof.
  unfold step. cbn [invocations process].
  rewrite list_lookup_middle by done. cbn.
  by rewrite insert_app_r_alt, Nat.sub_diag.
Qed.

(** Requests that arrive one after the other once the handler is cached: each
    settles with the cached handler, and the process does not change. *)
Lemma run_one_by_one_warm (ok : nat → bool) (h d m : nat) (pre : list Invocation) :
  run ok (flat_map (λ i, [i; i]) (seq (length pre) m))
    (mkSystem (mkProcess (Some h) d) (pre ++ replicate m Entered))
  = mkSystem (mkProcess (Some h) d) (pre ++ replicate m (Settled (Some h))).
Proof.
  revert pre. induction m as [|m IH]; intros pre; [done|].
  cbn [seq flat_map replicate app]. unfold run. cbn [foldl].
  rewrite step_entered_warm, step_settled.
  specialize (IH (pre ++ [Settled (Some h)])).
  rewrite length_app, Nat.add_1_r, <- !app_assoc in IH. exact IH.
Qed.

(** The first request of a process, run to its end. *)
Lemma first_request (ok : nat → bool) (post : list Invocation) :
  ok 1 = true →
  step ok (step ok (mkSystem (mkProcess None 0) (Entered :: post)) 0) 0
  = mkSystem (mkProcess (Some 1) 1) (Settled (Some 1) :: post).
Proof. intros Hok. cbn. by rewrite Hok. Qed.

(** The claim of C9 fails for two invocations that both start before the first
    one has finished initialising: each starts a discovery of its own. *)
Lemma C9_counterexample :
  let s := run (λ _, true) [0; 1; 0; 1] (cold 2) in
  discoveries (process s) = 2 ∧
  ¬ (discoveries (process s) ≤ 1)%nat ∧
  invocations s = [Settled (Some 1); Settled (Some 2)].
Proof. cbn. split_and!; [done|lia|done]. Qed.

(** C9, amended: once a handler is cached, no schedule of invocations starts a
    discovery again or clears the cache, and an invocation that starts then is
    served by the cached handler.  Requests handled one after the other from a
    cold start, the first discovery succeeding, start exactly one discovery and
    are all served by the handler it built.  Invocations that start while no
    handler is cached each start a discovery. *)
Theorem C9_discovery_cached (ok : nat → bool) :
  (∀ s schedule h,
     apolloHandler (process s) = Some h →
     discoveries (process (run ok schedule s)) = discoveries (process s) ∧
     is_Some (apolloHandler (process (run ok schedule s)))) ∧
  (∀ p h,
     apolloHandler p = Some h →
     step_invocation ok p Entered = (p, Settled (Some h))) ∧
  (∀ p,
     apolloHandler p = None →
     step_invocation ok p Entered =
       (mkProcess None (S (discoveries p)), AwaitingServer (S (discoveries p)))) ∧
  (∀ n,
     ok 1 = true →
     (1 ≤ n)%nat →
     run ok (one_by_one n) (cold n) =
       mkSystem (mkProcess (Some 1) 1) (replicate n (Settled (Some 1)))).
Proof.
  split_and!.
  - intros s schedule h. apply run_keeps_handler.
  - intros p h Hh. cbn. by rewrite Hh.
  - intros p Hp. cbn. by rewrite Hp.
  - intros n Hok Hn. destruct n as [|n]; [lia|].
    unfold one_by_one, cold. cbn [seq flat_map replicate app].
    unfold run. cbn [foldl]. rewrite first_request by done.
    apply (run_one_by_one_warm ok 1 1 n [Settled (Some 1)]).
Qed.

Lemma C9_discovery_cached_witness :
  run (λ _, true) (one_by_one 3) (cold 3) =
    mkSystem (mkProcess (Some 1) 1) (replicate 3 (Settled (Some 1))) ∧
  discoveries
    (process (run (λ _, true) [1; 0; 1; 2; 2]
                (mkSystem (mkProcess (Some 1) 1) [Settled (Some 1); Entered; Entered])))
  = 1.
Proof.
  split.
  - apply (C9_discovery_cached (λ _, true)); [reflexivity | lia].
  - apply (proj1 (C9_discovery_cached (λ _, true))
             (mkSystem (mkProcess (Some 1) 1) [Settled (Some 1); Entered; Entered])
             [1; 0; 1; 2; 2] 1).
    reflexivity.
Defined.

(** * Further properties of the code *)

(** ** [formatError] *)

(** X1: formatting an error that is already formatted changes nothing. *)
Theorem X1_formatError_idempotent (e : GqlError) :
  formatError (formatError e) = formatError e.
Proof.
  rewrite (formatError_cases e).
  destruct (is_passthrough e) eqn:Hp.
  { destruct e; done. }
  destruct (strict_eq_str (extensions_code e) INTERNAL_SERVER_ERROR) eqn:Hi.
  { destruct e; done. }
  rewrite formatError_cases.
  assert (extensions_code
            (with_extensions (delete "exception" <$> extensions e) (with_stack None e))
          = extensions_code e) as Hcode.
  { unfold extensions_code. cbn. destruct (extensions e) as [x|]; [|done].
    cbn. apply code_after_delete_exception. }
  unfold is_passthrough in *. rewrite Hcode, Hp, Hi.
  destruct e as [c m st nd sr ps pt oe [x|]]; cbn; [|done].
  unfold with_extensions. cbn. do 2 f_equal.
  apply map_eq. intros k. destruct (decide (k = "exception")) as [->|Hk].
  - by rewrite !lookup_delete_eq.
  - by rewrite !lookup_delete_ne.
Qed.

Lemma formatError_no_internals (e : GqlError) :
  stack (formatError e) = None ∧
  extensions (formatError e) ≫= (.!! "exception") = None ∧
  strict_eq_str (extensions_code (formatError e)) APPSYNC_PASSTHROUGH_ERROR = false ∧
  strict_eq_str (extensions_code (formatError e)) INTERNAL_SERVER_ERROR = false.
Proof.
  rewrite formatError_cases.
  destruct (is_passthrough e) eqn:Hp; [done|].
  destruct (strict_eq_str (extensions_code e) INTERNAL_SERVER_ERROR) eqn:Hi; [done|].
  assert (extensions_code
            (with_extensions (delete "exception" <$> extensions e) (with_stack None e))
          = extensions_code e) as Hcode.
  { unfold extensions_code. cbn. destruct (extensions e) as [x|]; [|done].
    cbn. apply code_after_delete_exception. }
  rewrite Hcode. unfold is_passthrough in Hp. split_and!; try done.
  cbn. destruct (extensions e) as [x|]; [|done]. cbn. apply lookup_delete_eq.
Qed.

(** X2: whatever error it is given, [formatError] returns an error without
    stack, without an [exception] entry, and whose code is neither the
    pass-through marker nor the internal one. *)
Theorem X2_formatError_strips (e : GqlError) :
  stack (formatError e) = None ∧
  extensions (formatError e) ≫= (.!! "exception") = None ∧
  strict_eq_str (extensions_code (formatError e)) APPSYNC_PASSTHROUGH_ERROR = false ∧
  strict_eq_str (extensions_code (formatError e)) INTERNAL_SERVER_ERROR = false.
Proof. apply formatError_no_internals. Qed.

(** X3: [formatError] invents nothing.  The class, the path and the location
    fields are those of its argument; the message is the argument's or the
    generic one, and it is the generic one only for an error whose code was
    [INTERNAL_SERVER_ERROR]; every extension entry of the result is an entry of
    the argument. *)
Theorem X3_formatError_conservative (e : GqlError) :
  (cls (formatError e) = cls e ∧ path (formatError e) = path e ∧
   nodes (formatError e) = nodes e ∧ source (formatError e) = source e ∧
   positions (formatError e) = positions e ∧
   originalError (formatError e) = originalError e) ∧
  (message (formatError e) = message e ∨
   (message (formatError e) = "Internal Server Error" ∧
    extensions_code e = JStr "INTERNAL_SERVER_ERROR" ∧
    extensions (formatError e) = None)) ∧
  (∀ k v, extensions (formatError e) ≫= (.!! k) = Some v →
          extensions e ≫= (.!! k) = Some v).
Proof.
  split; [|split].
  - destruct (formatError_frame e) as (Hc & Hn & Hs & Hp & Hpath & Ho). done.
  - rewrite formatError_cases. destruct (is_passthrough e); [by left|].
    destruct (strict_eq_str (extensions_code e) INTERNAL_SERVER_ERROR) eqn:Hi;
      [|by left].
    right. split_and!; try done.
    destruct (extensions_code e); try done. cbn in Hi.
    apply String.eqb_eq in Hi. by subst.
  - intros k v. rewrite formatError_cases. destruct (is_passthrough e); [done|].
    destruct (strict_eq_str (extensions_code e) INTERNAL_SERVER_ERROR); [done|].
    cbn. destruct (extensions e) as [x|]; [|done]. cbn.
    destruct (decide (k = "exception")) as [->|Hk].
    + by rewrite lookup_delete_eq.
    + by rewrite lookup_delete_ne.
Qed.

(** ** The pass-through transform *)

Lemma passThroughError_idempotent (error : GqlError) :
  passThroughError (passThroughError error) = passThroughError error.
Proof.
  unfold passThroughError, GraphQLError_new. cbn. do 2 f_equal.
  unfold spread_with_code. cbn. apply insert_insert_eq.
Qed.

(** X4: the transform keeps the data and the number of errors of a result, and
    of every error the message, the path, the location fields, the original
    error and every extension except [code]; the [code] of every error becomes
    the pass-through marker, whatever code the backend had given it.  A result
    without an error list is returned as it is. *)
Theorem X4_transformResult_preserves (r : RawResult) :
  data (transformResult r) = data r ∧
  (errors r = None → transformResult r = r) ∧
  (∀ errs, errors r = Some errs →
     ∃ errs', errors (transformResult r) = Some errs' ∧
       length errs' = length errs ∧
       ∀ i e, errs !! i = Some e →
         ∃ e', errs' !! i = Some e' ∧
           message e' = message e ∧ path e' = path e ∧ nodes e' = nodes e ∧
           source e' = source e ∧ positions e' = positions e ∧
           originalError e' = originalError e ∧
           extensions_code e' = JStr "APPSYNC_PASSTHROUGH_ERROR" ∧
           ∀ k, k ≠ "code" →
             extensions e' ≫= (.!! k) = extensions e ≫= (.!! k)).
Proof.
  destruct r as [d [errs|]]; cbn; split_and!; try done.
  intros errs0 [= <-]. exists (map passThroughError errs).
  split; [done|]. split; [by rewrite length_map|].
  intros i e Hi. exists (passThroughError e). split.
  { by rewrite list_lookup_fmap, Hi. }
  split_and!; try done.
  - apply passThroughError_code.
  - intros k Hk. cbn. unfold spread_with_code. rewrite lookup_insert_ne by done.
    destruct (extensions e); done.
Qed.

Lemma X4_transformResult_preserves_witness :
  ∃ errs', errors (transformResult (mkResult JNull (Some [Sample.backend_error])))
             = Some errs' ∧
    length errs' = 1 ∧
    ∀ i e, [Sample.backend_error] !! i = Some e →
      ∃ e', errs' !! i = Some e' ∧
        message e' = message e ∧ path e' = path e ∧ nodes e' = nodes e ∧
        source e' = source e ∧ positions e' = positions e ∧
        originalError e' = originalError e ∧
        extensions_code e' = JStr "APPSYNC_PASSTHROUGH_ERROR" ∧
        ∀ k, k ≠ "code" →
          extensions e' ≫= (.!! k) = extensions e ≫= (.!! k).
Proof.
  apply (proj2 (proj2 (X4_transformResult_preserves
                         (mkResult JNull (Some [Sample.backend_error]))))
           [Sample.backend_error]).
  reflexivity.
Defined.

(** X5: applying the transform twice is the same as applying it once. *)
Theorem X5_transformResult_idempotent (r : RawResult) :
  transformResult (transformResult r) = transformResult r.
Proof.
  destruct r as [d [errs|]]; cbn; [|done]. unfold transformResult. cbn.
  do 2 f_equal. rewrite map_map. apply map_ext. intros e.
  apply passThroughError_idempotent.
Qed.

(** X6: a backend error is passed on unmasked whatever it carries, even when
    the backend itself gave it the code [INTERNAL_SERVER_ERROR]: after the
    transform, [formatError] keeps its message, path, location fields and
    original error, and removes its stack and its extensions; and
    [didEncounterErrors] does not send it to the error-tracking service. *)
Theorem X6_backend_error_never_masked (error : GqlError) :
  formatError (passThroughError error) =
    mkError GraphQLErrorC (message error) None (nodes error) (source error)
      (positions error) (path error) (originalError error) None ∧
  reportable (passThroughError error) = false.
Proof.
  split.
  - rewrite formatError_cases, passThroughError_is_passthrough. done.
  - apply backend_error_not_reportable.
Qed.

(** ** Credential lookup *)

(** X7: a lookup that does not reject yields [null] or a truthy affinity, never
    another falsy value; and it rejects exactly when the table does, with the
    table's error. *)
Theorem X7_getAffinityFromApiKey_result (t : Table) (apiKey : string) :
  (∀ v, getAffinityFromApiKey t apiKey = inr v → v = JNull ∨ truthy v = true) ∧
  (∀ e, getAffinityFromApiKey t apiKey = inl e ↔ lookup_fault t = Some e).
Proof.
  unfold getAffinityFromApiKey, ddbDocClient_get. destruct (lookup_fault t) as [e0|].
  - split; [done|]. intros e. split; congruence.
  - cbn. split; [|intros e; split; discriminate].
    intros v [= <-]. unfold or_null.
    destruct (truthy (default JUndefined (rows t !! apiKey ≫= (.!! "affinity"))))
      eqn:Ht; [by right|by left].
Qed.

Lemma X7_getAffinityFromApiKey_result_witness :
  JStr "dev-42" = JNull ∨ truthy (JStr "dev-42") = true.
Proof.
  apply (proj1 (X7_getAffinityFromApiKey_result Sample.table "K") (JStr "dev-42")).
  vm_compute. reflexivity.
Defined.

(** X8: storing an item with a truthy affinity under a credential makes the
    lookup of that credential return this affinity and leaves the lookup of
    every other credential as it was; once the item is deleted, the lookup
    returns [null]. *)
Theorem X8_lookup_after_store (items : gmap string (gmap string JsVal))
    (apiKey : string) (item : gmap string JsVal) (a : JsVal) :
  truthy a = true →
  getAffinityFromApiKey
    (mkTable None (<[apiKey := <["affinity" := a]> item]> items)) apiKey = inr a ∧
  (∀ other, other ≠ apiKey →
     getAffinityFromApiKey
       (mkTable None (<[apiKey := <["affinity" := a]> item]> items)) other
     = getAffinityFromApiKey (mkTable None items) other) ∧
  getAffinityFromApiKey
    (mkTable None (delete apiKey (<[apiKey := <["affinity" := a]> item]> items))) apiKey
  = inr JNull.
Proof.
  intros Ha. unfold getAffinityFromApiKey, ddbDocClient_get. cbn. split_and!.
  - rewrite lookup_insert_eq. cbn. rewrite lookup_insert_eq. cbn.
    unfold or_null. by rewrite Ha.
  - intros other Ho. by rewrite lookup_insert_ne.
  - by rewrite lookup_delete_eq.
Qed.

Lemma X8_lookup_after_store_witness :
  getAffinityFromApiKey
    (mkTable None (<["K2" := <["affinity" := JStr "dev-7"]> ∅]> (rows Sample.table)))
    "K2" = inr (JStr "dev-7").
Proof.
  apply (X8_lookup_after_store (rows Sample.table) "K2" ∅ (JStr "dev-7")).
  reflexivity.
Defined.

(** ** The context *)

(** When the context holds an affinity, and which. *)
Lemma context_affinity_stored (t : Table) (authorization : option string) (a : JsVal) :
  affinity (context t authorization) = Some a ↔
  ∃ apiKey item,
    authorization = Some apiKey ∧ apiKey ≠ "" ∧ lookup_fault t = None ∧
    rows t !! trim apiKey = Some item ∧ item !! "affinity" = Some a ∧
    truthy a = true.
Proof.
  unfold context, context_try, getAffinityFromApiKey, ddbDocClient_get. split.
  - destruct authorization as [apiKey|]; [|done].
    destruct (decide (apiKey = "")) as [->|Hk]; [done|].
    rewrite (apiKey_truthy _ Hk).
    destruct (lookup_fault t) as [e|]; [done|]. cbn [Item].
    destruct (rows t !! trim apiKey) as [item|] eqn:Hrow; [|done]. cbn.
    destruct (item !! "affinity") as [v|] eqn:Hv; [|done]. cbn.
    unfold or_null. destruct (truthy v) eqn:Ht; [|done]. rewrite Ht. cbn.
    intros [= <-]. by exists apiKey, item.
  - intros (apiKey & item & -> & Hk & Hf & Hrow & Hv & Ht).
    rewrite (apiKey_truthy _ Hk), Hf. cbn [Item]. rewrite Hrow. cbn. rewrite Hv. cbn.
    unfold or_null. rewrite Ht. cbn. by rewrite Ht.
Qed.

(** X9: the context holds an affinity exactly when the header is present and
    not empty, the lookup does not reject, and the item stored for the trimmed
    header has a truthy affinity; the affinity of the context is that one. *)
Theorem X9_context_affinity (t : Table) (authorization : option string) (a : JsVal) :
  affinity (context t authorization) = Some a ↔
  ∃ apiKey item,
    authorization = Some apiKey ∧ apiKey ≠ "" ∧ lookup_fault t = None ∧
    rows t !! trim apiKey = Some item ∧ item !! "affinity" = Some a ∧
    truthy a = true.
Proof. apply context_affinity_stored. Qed.

Lemma X9_context_affinity_witness :
  affinity (context Sample.table (Some " K ")) = Some (JStr "dev-42").
Proof.
  apply (X9_context_affinity Sample.table (Some " K ") (JStr "dev-42")).
  exists " K ", {[ "apiKey" := JStr "K"; "affinity" := JStr "dev-42" ]}.
  split_and!; [reflexivity | discriminate | reflexivity | vm_compute; reflexivity
              | vm_compute; reflexivity | reflexivity].
Defined.

(** X10: the errors a context can hold.  Without a header, or with an empty
    one, it is the [AuthenticationError] [Missing authorization header] and the
    table is not consulted, even when its lookups reject.  With a header that is
    not empty, a rejected lookup puts the table's own error in the context; when
    the lookup does not reject, the only other error is the
    [AuthenticationError] [Invalid authorization header]. *)
Theorem X10_context_errors (t : Table) (authorization : option string) :
  (authorization = None ∨ authorization = Some "" →
   context t authorization =
     mkContext None (Some (AuthenticationError "Missing authorization header"))) ∧
  (∀ apiKey fault,
     authorization = Some apiKey → apiKey ≠ "" → lookup_fault t = Some fault →
     context t authorization = mkContext None (Some fault)) ∧
  (∀ err,
     lookup_fault t = None →
     contextError (context t authorization) = Some err →
     err = AuthenticationError "Missing authorization header" ∨
     err = AuthenticationError "Invalid authorization header").
Proof.
  unfold context, context_try, getAffinityFromApiKey, ddbDocClient_get. split_and!.
  - by intros [-> | ->].
  - intros apiKey fault -> Hk Hf. by rewrite (apiKey_truthy _ Hk), Hf.
  - intros err Hf. rewrite Hf. destruct authorization as [apiKey|].
    + destruct (negb (truthy (JStr apiKey))); cbn; [intros [= <-]; by left|].
      destruct (negb (truthy _)); cbn; [intros [= <-]; by right|done].
    + cbn. intros [= <-]. by left.
Qed.

Lemma X10_context_errors_witness :
  context Sample.table_down (Some "") =
    mkContext None (Some (AuthenticationError "Missing authorization header")) ∧
  context Sample.table_down (Some "K") = mkContext None (Some Sample.lookup_error) ∧
  (AuthenticationError "Invalid authorization header"
     = AuthenticationError "Missing authorization header" ∨
   AuthenticationError "Invalid authorization header"
     = AuthenticationError "Invalid authorization header").
Proof.
  split_and!.
  - apply (proj1 (X10_context_errors Sample.table_down (Some ""))). by right.
  - apply (proj1 (proj2 (X10_context_errors Sample.table_down (Some "K")))
             "K" Sample.lookup_error); [reflexivity | discriminate | reflexivity].
  - apply (proj2 (proj2 (X10_context_errors Sample.table (Some "Z")))
             (AuthenticationError "Invalid authorization header"));
      [reflexivity | vm_compute; reflexivity].
Defined.

(** ** Trimming the credential *)

Lemma append_cons (c : Ascii.ascii) (x y : string) :
  String.app (String c x) y = String c (String.app x y).
Proof. reflexivity. Qed.

Lemma append_nil_r (s : string) : String.app s "" = s.
Proof. induction s as [|c s IH]; [done|]. by rewrite append_cons, IH. Qed.

Lemma append_assoc (x y z : string) :
  String.app (String.app x y) z = String.app x (String.app y z).
Proof. induction x as [|c x IH]; [done|]. by rewrite !append_cons, IH. Qed.

Lemma rev_app_append (x y z : string) :
  String.rev_app (String.app x y) z = String.rev_app y (String.rev_app x z).
Proof.
  revert z. induction x as [|c x IH]; intros z; [done|].
  rewrite append_cons. cbn. apply IH.
Qed.

Lemma rev_app_rev_app (s u v : string) :
  String.rev_app (String.rev_app s u) v = String.rev_app u (String.app s v).
Proof.
  revert u v. induction s as [|c s IH]; intros u v; [done|].
  rewrite append_cons. cbn. by rewrite IH.
Qed.

Lemma rev_involutive (s : string) : String.rev (String.rev s) = s.
Proof. unfold String.rev. rewrite rev_app_rev_app. cbn. apply append_nil_r. Qed.

Lemma rev_app_spec (s u : string) :
  String.rev_app s u = String.app (String.rev s) u.
Proof.
  unfold String.rev. revert u. induction s as [|c s IH]; intros u; [done|].
  cbn. rewrite (IH (String c u)), (IH (String c "")), append_assoc. done.
Qed.

Lemma rev_cons (c : Ascii.ascii) (s : string) :
  String.rev (String c s) = String.app (String.rev s) (String c "").
Proof. unfold String.rev at 1. cbn. apply rev_app_spec. Qed.

Lemma rev_snoc (c : Ascii.ascii) (s : string) :
  String.rev (String.app s (String c "")) = String c (String.rev s).
Proof. unfold String.rev. by rewrite rev_app_append. Qed.

Lemma trimStart_idempotent (s : string) : trimStart (trimStart s) = trimStart s.
Proof.
  induction s as [|c s IH]; [done|]. cbn [trimStart].
  destruct (isWhiteSpace c) eqn:Hc; [done|]. cbn [trimStart]. by rewrite Hc.
Qed.

(** A last character that is not white space stops the trimming. *)
Lemma trimStart_snoc (c : Ascii.ascii) (s : string) :
  isWhiteSpace c = false →
  trimStart (String.app s (String c "")) = String.app (trimStart s) (String c "").
Proof.
  intros Hc. induction s as [|d s IH].
  - change (String.app "" (String c "")) with (String c "").
    cbn [trimStart]. by rewrite Hc.
  - rewrite append_cons. cbn [trimStart]. destruct (isWhiteSpace d); [done|].
    by rewrite append_cons.
Qed.

Lemma trimEnd_cons (c : Ascii.ascii) (s : string) :
  isWhiteSpace c = false → trimEnd (String c s) = String c (trimEnd s).
Proof.
  intros Hc. unfold trimEnd. by rewrite rev_cons, trimStart_snoc, rev_snoc.
Qed.

Lemma trimEnd_idempotent (s : string) : trimEnd (trimEnd s) = trimEnd s.
Proof. unfold trimEnd. by rewrite rev_involutive, trimStart_idempotent. Qed.

(** A string that trimming at the start leaves alone is empty or starts with a
    character that is not white space. *)
Lemma trimStart_length (s : string) :
  (String.length (trimStart s) ≤ String.length s)%nat.
Proof.
  induction s as [|c s IH]; [done|]. cbn [trimStart String.length].
  destruct (isWhiteSpace c); cbn [String.length]; lia.
Qed.

Lemma trimStart_fixed (c : Ascii.ascii) (s : string) :
  trimStart (String c s) = String c s → isWhiteSpace c = false.
Proof.
  cbn [trimStart]. destruct (isWhiteSpace c); [|done]. intros Hs.
  pose proof (trimStart_length s) as Hle. rewrite Hs in Hle.
  cbn [String.length] in Hle. lia.
Qed.

Lemma trim_idempotent (s : string) : trim (trim s) = trim s.
Proof.
  unfold trim.
  assert (trimStart (trimEnd (trimStart s)) = trimEnd (trimStart s)) as ->.
  { pose proof (trimStart_idempotent s) as Hs.
    destruct (trimStart s) as [|c u]; [done|].
    apply trimStart_fixed in Hs. rewrite trimEnd_cons by done.
    cbn [trimStart]. by rewrite Hs. }
  apply trimEnd_idempotent.
Qed.

(** X11: a header that holds only white space is not a missing header.  It is
    truthy, so its trimmed value, the empty credential, is looked up, and when
    the table has no item for it the context holds [Invalid authorization
    header]. *)
Theorem X11_blank_header_is_invalid (t : Table) (apiKey : string) :
  apiKey ≠ "" →
  trim apiKey = "" →
  lookup_fault t = None →
  rows t !! "" = None →
  context t (Some apiKey) =
    mkContext None (Some (AuthenticationError "Invalid authorization header")).
Proof.
  intros Hk Ht Hf Hrow. apply context_invalid; [done..|]. by rewrite Ht, Hrow.
Qed.

Lemma X11_blank_header_is_invalid_witness :
  context Sample.table (Some "   ") =
    mkContext None (Some (AuthenticationError "Invalid authorization header")).
Proof.
  apply (X11_blank_header_is_invalid Sample.table "   ");
    [discriminate | reflexivity | reflexivity | vm_compute; reflexivity].
Defined.

(** X12: white space around the credential does not matter: a header whose
    trimmed value is not empty yields the same context as the trimmed value
    itself. *)
Theorem X12_context_ignores_padding (t : Table) (apiKey : string) :
  trim apiKey ≠ "" →
  context t (Some apiKey) = context t (Some (trim apiKey)).
Proof.
  intros Ht. assert (apiKey ≠ "") as Hk by (by intros ->).
  unfold context, context_try.
  by rewrite (apiKey_truthy _ Hk), (apiKey_truthy _ Ht), trim_idempotent.
Qed.

Lemma X12_context_ignores_padding_witness :
  context Sample.table (Some "  K ") = context Sample.table (Some (trim "  K ")).
Proof.
  apply (X12_context_ignores_padding Sample.table "  K "). discriminate.
Defined.

(** ** The resolvers *)

(** X13: the caller cannot choose the affinity.  An [affinity] argument of the
    caller, whatever its value, does not change what is forwarded. *)
Theorem X13_affinity_not_spoofable (f : GatewayField) (a : gmap string JsVal)
    (spoofed : JsVal) (ctx : Context) :
  resolver f (<["affinity" := spoofed]> a) ctx = resolver f a ctx.
Proof.
  destruct f; cbn; unfold sayHello, someRandomMutation, with_affinity;
    by rewrite insert_insert_eq.
Qed.

Lemma forwarded_affinity_stored (t : Table) (authorization : option string)
    (f : GatewayField) (a : gmap string JsVal) :
  contextError (context t authorization) = None →
  ∃ apiKey item tag,
    authorization = Some apiKey ∧
    rows t !! trim apiKey = Some item ∧ item !! "affinity" = Some tag ∧
    truthy tag = true ∧
    args (resolver f a (context t authorization)) !! "affinity" = Some tag.
Proof.
  intros Hc. destruct (context_exclusive t authorization) as [[[tag Ha] _]|[_ [e He]]];
    [|congruence].
  destruct (proj1 (context_affinity_stored t authorization tag) Ha)
    as (apiKey & item & -> & _ & _ & Hrow & Hv & Ht).
  exists apiKey, item, tag. split_and!; try done.
  destruct f; cbn; unfold with_affinity; rewrite Ha; apply lookup_insert_eq.
Qed.

(** X14: what a resolver forwards for an authenticated request.  When the
    context holds no error, the [affinity] argument of the delegation is the
    truthy affinity stored in the table for the trimmed credential. *)
Theorem X14_forwarded_affinity_is_stored (t : Table) (authorization : option string)
    (f : GatewayField) (a : gmap string JsVal) :
  contextError (context t authorization) = None →
  ∃ apiKey item tag,
    authorization = Some apiKey ∧
    rows t !! trim apiKey = Some item ∧ item !! "affinity" = Some tag ∧
    truthy tag = true ∧
    args (resolver f a (context t authorization)) !! "affinity" = Some tag.
Proof. apply forwarded_affinity_stored. Qed.

Lemma X14_forwarded_affinity_is_stored_witness :
  ∃ apiKey item tag,
    Some "K" = Some apiKey ∧
    rows Sample.table !! trim apiKey = Some item ∧ item !! "affinity" = Some tag ∧
    truthy tag = true ∧
    args (resolver SayHelloField {[ "name" := JStr "x" ]}
            (context Sample.table (Some "K"))) !! "affinity" = Some tag.
Proof.
  apply (X14_forwarded_affinity_is_stored Sample.table (Some "K") SayHelloField
           {[ "name" := JStr "x" ]}).
  vm_compute. reflexivity.
Defined.

(** ** The hooks of the listener *)

(** X15: no hook clears a flag.  Hence, once a flag is set, whatever the later
    hooks are given, [didEncounterErrors] sends nothing to the error-tracking
    service and does not flush it. *)
Theorem X15_flags_are_sticky (l : Listener) (parsingError : option GqlError)
    (validationErrors : option (list GqlError)) (rc rc' : RequestContext) :
  flags_kept l (parsingDidEnd parsingError l) ∧
  flags_kept l (validationDidEnd validationErrors l) ∧
  flags_kept l (didResolveOperation rc l) ∧
  (any_flag l = true →
   captured
     (didEncounterErrors rc'
        (didResolveOperation rc
           (validationDidEnd validationErrors (parsingDidEnd parsingError l)))).1 = [] ∧
   flushes
     (didEncounterErrors rc'
        (didResolveOperation rc
           (validationDidEnd validationErrors (parsingDidEnd parsingError l)))).1 = 0).
Proof.
  assert (flags_kept l (parsingDidEnd parsingError l)) as H1.
  { unfold flags_kept. destruct parsingError; cbn; done. }
  assert (∀ l0, flags_kept l0 (validationDidEnd validationErrors l0)) as H2.
  { intros l0. unfold flags_kept. destruct validationErrors as [[|]|]; cbn; done. }
  assert (∀ l0, flags_kept l0 (didResolveOperation rc l0)) as H3.
  { intros l0. unfold flags_kept, didResolveOperation.
    destruct (operationName rc); cbn; done. }
  split_and!; [done..|].
  intros Hany. rewrite didEncounterErrors_captured, didEncounterErrors_flushes.
  set (l3 := didResolveOperation rc _).
  assert (any_flag l3 = true) as ->; [|done].
  subst l3. set (l1 := parsingDidEnd parsingError l) in *.
  destruct (H2 l1) as (A2 & B2 & C2).
  destruct (H3 (validationDidEnd validationErrors l1)) as (A3 & B3 & C3).
  destruct H1 as (A1 & B1 & C1). unfold any_flag in *.
  destruct (graphqlParsingFailure l); [by rewrite A3 by auto|].
  destruct (graphqlValidationFailure l);
    [rewrite B3 by auto; by rewrite orb_true_r|].
  cbn in Hany. rewrite C3 by auto. by rewrite !orb_true_r.
Qed.

Lemma X15_flags_are_sticky_witness :
  captured
    (didEncounterErrors
       (mkRequestContext Sample.hello (context Sample.table (Some "K")) [] JNull
          [Sample.transport_error])
       (didResolveOperation
          (mkRequestContext Sample.hello (context Sample.table (Some "K")) []
             (JStr "Q") [])
          (validationDidEnd (Some [])
             (parsingDidEnd None (mkListener true false false))))).1 = [] ∧
  flushes
    (didEncounterErrors
       (mkRequestContext Sample.hello (context Sample.table (Some "K")) [] JNull
          [Sample.transport_error])
       (didResolveOperation
          (mkRequestContext Sample.hello (context Sample.table (Some "K")) []
             (JStr "Q") [])
          (validationDidEnd (Some [])
             (parsingDidEnd None (mkListener true false false))))).1 = 0.
Proof.
  apply (X15_flags_are_sticky (mkListener true false false) None (Some [])
           (mkRequestContext Sample.hello (context Sample.table (Some "K")) []
              (JStr "Q") [])
           (mkRequestContext Sample.hello (context Sample.table (Some "K")) [] JNull
              [Sample.transport_error])).
  reflexivity.
Defined.

Lemma logged_app (tr1 tr2 : list Event) :
  logged (tr1 ++ tr2) = logged tr1 ++ logged tr2.
Proof. unfold logged. apply omap_app. Qed.

(** X16: what [didEncounterErrors] writes with [log.error].  When a flag is set,
    nothing: the errors only appear in the one [log.info] line.  Otherwise every
    error of the list is logged, in order, and an error that is sent to the
    error-tracking service is logged a second time by the service. *)
Theorem X16_didEncounterErrors_logs (rc : RequestContext) (l : Listener) :
  logged (didEncounterErrors rc l).1 =
  if any_flag l then []
  else flat_map (λ e, if reportable e then [e; e] else [e]) (rc_errors rc).
Proof.
  rewrite didEncounterErrors_trace. destruct (any_flag l); [done|].
  change (logged (?x :: ?t)) with (logged t).
  rewrite logged_app. change (logged [Flush; _]) with (@nil GqlError).
  rewrite app_nil_r.
  induction (rc_errors rc) as [|e es IH]; [done|].
  cbn [map concat flat_map]. rewrite logged_app, IH.
  unfold iteration_trace. destruct (reportable e); done.
Qed.

(** ** The pipeline as a whole *)

Lemma processRequest_validation_error (t : Table) (executor : Executor) (r : Incoming)
    (tr : list Event) (l0 : Listener) (v : GqlError) (vs : list GqlError) :
  let rc := mkRequestContext (in_request r) (context t (authorization r)) [] JUndefined in
  requestDidStart (rc []) = (tr, Returned l0) →
  in_parsingError r = None →
  in_validationErrors r = v :: vs →
  processRequest t executor r =
  (tr ++ (didEncounterErrors (rc (v :: vs))
            (validationDidEnd (Some (v :: vs)) (parsingDidEnd None l0))).1,
   map (λ e, formatError (enrichError e)) (v :: vs)).
Proof.
  intros rc H Hp Hv. subst rc. unfold processRequest. cbv zeta.
  rewrite H, Hp, Hv. unfold sendErrors. cbn [rc_errors]. reflexivity.
Qed.

Lemma requestDidStart_delegations (rc : RequestContext) :
  delegations (requestDidStart rc).1 = [].
Proof.
  unfold requestDidStart. destruct (contextError (rc_context rc)) as [err|].
  - by destruct (instanceof err AuthenticationErrorC).
  - by destruct (affinity (rc_context rc)) as [a|]; [destruct (truthy a)|].
Qed.

(** What a request delegates: its selected fields when the context holds no
    error and the operation parses and validates, and nothing otherwise. *)
Lemma processRequest_delegations (t : Table) (executor : Executor) (r : Incoming) :
  delegations (processRequest t executor r).1 =
  match contextError (context t (authorization r)), in_parsingError r,
        in_validationErrors r with
  | None, None, [] =>
      map (λ sel, resolver sel.1 sel.2 (context t (authorization r))) (in_selection r)
  | _, _, _ => []
  end.
Proof.
  set (rc0 := mkRequestContext (in_request r) (context t (authorization r)) []
                JUndefined []).
  pose proof (requestDidStart_delegations rc0) as Hdel.
  destruct (contextError (context t (authorization r))) as [err|] eqn:Hc.
  - destruct (instanceof err AuthenticationErrorC) eqn:Hi.
    + destruct (requestDidStart_authentication rc0 err Hc Hi) as (tr & Hs & _).
      rewrite (processRequest_thrown _ _ _ _ _ Hs). by rewrite Hs in Hdel.
    + destruct (requestDidStart_other rc0 err Hc Hi) as (tr & Hs & _).
      rewrite (processRequest_thrown _ _ _ _ _ Hs). by rewrite Hs in Hdel.
  - destruct (requestDidStart_ok rc0 Hc) as (tr & Hs & _).
    rewrite Hs in Hdel. cbn [fst snd] in Hdel.
    destruct (in_parsingError r) as [e|] eqn:Hp.
    + rewrite (processRequest_parse_error t executor r tr _ e Hs Hp). cbn [fst snd].
      by rewrite delegations_app, Hdel, didEncounterErrors_delegations.
    + destruct (in_validationErrors r) as [|v vs] eqn:Hv.
      * by destruct (processRequest_executed t executor r Hc Hp Hv) as (_ & _ & ->).
      * rewrite (processRequest_validation_error t executor r tr _ v vs Hs Hp Hv).
        cbn [fst snd].
        by rewrite delegations_app, Hdel, didEncounterErrors_delegations.
Qed.

(** Every error of a response went through [formatError]. *)
Lemma processRequest_formatted (t : Table) (executor : Executor) (r : Incoming) :
  ∃ errs, (processRequest t executor r).2 = map (λ e, formatError (enrichError e)) errs.
Proof.
  unfold processRequest. cbv zeta.
  destruct (requestDidStart _) as [tr [l0|e]]; [|by exists [e]].
  destruct (in_parsingError r) as [e|]; [by exists [e]|].
  destruct (in_validationErrors r) as [|v vs]; [|by exists (v :: vs)].
  destruct (executeFields _ _ _) as [trx [|e es]]; [by exists []|by exists (e :: es)].
Qed.

(** X17: nothing is delegated to the backend for a request that is not
    authenticated.  Every delegation of a request is the resolver's delegation
    for one of its selected fields, made with the context of the request; the
    operation parsed and validated, the context holds no error, and the
    [affinity] argument of the delegation is the truthy affinity stored in the
    table for the trimmed credential of the request. *)
Theorem X17_delegations_are_authenticated (t : Table) (executor : Executor)
    (r : Incoming) (d : Delegation) :
  d ∈ delegations (processRequest t executor r).1 →
  contextError (context t (authorization r)) = None ∧
  in_parsingError r = None ∧
  in_validationErrors r = [] ∧
  (∃ sel, sel ∈ in_selection r ∧ d = resolver sel.1 sel.2 (context t (authorization r))) ∧
  ∃ apiKey item tag,
    authorization r = Some apiKey ∧
    rows t !! trim apiKey = Some item ∧ item !! "affinity" = Some tag ∧
    truthy tag = true ∧
    args d !! "affinity" = Some tag.
Proof.
  rewrite processRequest_delegations.
  destruct (contextError (context t (authorization r))) as [err|] eqn:Hc;
    [by intros ?%elem_of_nil|].
  destruct (in_parsingError r) as [e|]; [by intros ?%elem_of_nil|].
  destruct (in_validationErrors r) as [|v vs]; [|by intros ?%elem_of_nil].
  intros (sel & -> & Hsel)%list_elem_of_fmap.
  split_and!; try done.
  - by exists sel.
  - by apply forwarded_affinity_stored.
Qed.

Lemma X17_delegations_are_authenticated_witness :
  contextError (context Sample.table (Some "K")) = None ∧
  in_parsingError (Sample.request (Some "K") JNull) = None ∧
  in_validationErrors (Sample.request (Some "K") JNull) = [] ∧
  (∃ sel, sel ∈ in_selection (Sample.request (Some "K") JNull) ∧
          sayHello {[ "name" := JStr "x" ]} (context Sample.table (Some "K"))
          = resolver sel.1 sel.2 (context Sample.table (Some "K"))) ∧
  ∃ apiKey item tag,
    Some "K" = Some apiKey ∧
    rows Sample.table !! trim apiKey = Some item ∧ item !! "affinity" = Some tag ∧
    truthy tag = true ∧
    args (sayHello {[ "name" := JStr "x" ]} (context Sample.table (Some "K")))
      !! "affinity" = Some tag.
Proof.
  apply (X17_delegations_are_authenticated Sample.table Sample.backend_answers
           (Sample.request (Some "K") JNull)
           (sayHello {[ "name" := JStr "x" ]} (context Sample.table (Some "K")))).
  rewrite processRequest_delegations. apply list_elem_of_here.
Defined.

(** X18: no error of a response has a stack or an [exception] entry, and none
    carries the pass-through marker or the code [INTERNAL_SERVER_ERROR]. *)
Theorem X18_response_errors_are_stripped (t : Table) (executor : Executor)
    (r : Incoming) (e : GqlError) :
  e ∈ (processRequest t executor r).2 →
  stack e = None ∧
  extensions e ≫= (.!! "exception") = None ∧
  strict_eq_str (extensions_code e) APPSYNC_PASSTHROUGH_ERROR = false ∧
  strict_eq_str (extensions_code e) INTERNAL_SERVER_ERROR = false.
Proof.
  destruct (processRequest_formatted t executor r) as [errs ->].
  intros (e0 & -> & _)%list_elem_of_fmap. apply formatError_no_internals.
Qed.

Lemma X18_response_errors_are_stripped_witness :
  stack (formatError (enrichError Sample.transport_error)) = None ∧
  extensions (formatError (enrichError Sample.transport_error)) ≫= (.!! "exception")
    = None ∧
  strict_eq_str (extensions_code (formatError (enrichError Sample.transport_error)))
    APPSYNC_PASSTHROUGH_ERROR = false ∧
  strict_eq_str (extensions_code (formatError (enrichError Sample.transport_error)))
    INTERNAL_SERVER_ERROR = false.
Proof.
  apply (X18_response_errors_are_stripped Sample.table Sample.transport_fails
           (Sample.request (Some "K") JNull)).
  vm_compute. apply list_elem_of_here.
Defined.

(** X19: a request whose operation does not validate is answered with its
    validation errors, formatted; nothing is delegated to the backend and
    nothing is sent to the error-tracking service, whatever the errors are. *)
Theorem X19_validation_failure_not_reported (t : Table) (executor : Executor)
    (r : Incoming) (v : GqlError) (vs : list GqlError) :
  contextError (context t (authorization r)) = None →
  in_parsingError r = None →
  in_validationErrors r = v :: vs →
  (processRequest t executor r).2 = map (λ e, formatError (enrichError e)) (v :: vs) ∧
  delegations (processRequest t executor r).1 = [] ∧
  captured (processRequest t executor r).1 = [] ∧
  flushes (processRequest t executor r).1 = 0.
Proof.
  intros Hc Hp Hv.
  destruct (requestDidStart_ok
              (mkRequestContext (in_request r) (context t (authorization r)) []
                 JUndefined []) Hc) as (tr & Hs & Hcap & Hfl & Hdel).
  rewrite (processRequest_validation_error t executor r tr _ v vs Hs Hp Hv).
  cbn [fst snd].
  rewrite delegations_app, captured_app, flushes_app, didEncounterErrors_delegations,
    didEncounterErrors_captured, didEncounterErrors_flushes, Hcap, Hfl, Hdel.
  done.
Qed.

Lemma X19_validation_failure_not_reported_witness :
  let r :=
    mkIncoming (Some "K") Sample.hello None [Sample.coded_error]
      [mkOperation OpQuery None] JNull [(SayHelloField, ∅)] in
  (processRequest Sample.table Sample.backend_answers r).2
    = map (λ e, formatError (enrichError e)) [Sample.coded_error] ∧
  delegations (processRequest Sample.table Sample.backend_answers r).1 = [] ∧
  captured (processRequest Sample.table Sample.backend_answers r).1 = [] ∧
  flushes (processRequest Sample.table Sample.backend_answers r).1 = 0.
Proof.
  apply (X19_validation_failure_not_reported Sample.table Sample.backend_answers
           (mkIncoming (Some "K") Sample.hello None [Sample.coded_error]
              [mkOperation OpQuery None] JNull [(SayHelloField, ∅)])
           Sample.coded_error []);
    vm_compute; reflexivity.
Defined.

(** ** More on the cached handler *)

Lemma pending_cons (j : Invocation) (l : list Invocation) :
  pending (j :: l) = (pending [j] + pending l)%nat.
Proof. unfold pending. cbn. by destruct j. Qed.

Lemma pending_replicate (n : nat) : pending (replicate n Entered) = n.
Proof.
  induction n as [|n IH]; [done|].
  cbn [replicate]. by rewrite pending_cons, IH.
Qed.

(** Replacing one invocation changes the number of pending ones by what the
    old and the new one count for. *)
Lemma pending_insert (l : list Invocation) (n : nat) (i i' : Invocation) :
  l !! n = Some i →
  (pending (<[n := i']> l) + pending [i] = pending l + pending [i'])%nat.
Proof.
  revert n. induction l as [|j l IH]; intros n Hn; [done|].
  destruct n as [|n].
  - injection Hn as ->. change (<[0 := i']> (i :: l)) with (i' :: l).
    rewrite (pending_cons i l), (pending_cons i' l). lia.
  - change (<[S n := i']> (j :: l)) with (j :: <[n := i']> l).
    rewrite (pending_cons j l), (pending_cons j (<[n := i']> l)).
    specialize (IH n Hn). lia.
Qed.

#[local] Arguments pending : simpl never.

(** A step that starts a discovery takes an invocation out of the pending
    ones: discoveries and pending invocations together never grow. *)
Lemma step_budget (ok : nat → bool) (s : System) (n : nat) :
  (discoveries (process (step ok s n)) + pending (invocations (step ok s n))
   ≤ discoveries (process s) + pending (invocations s))%nat.
Proof.
  unfold step. destruct (invocations s !! n) as [i|] eqn:Hn; [|done].
  assert (∀ i', pending (<[n := i']> (invocations s)) + pending [i]
                = pending (invocations s) + pending [i'])%nat as Hins.
  { intros i'. by apply pending_insert. }
  destruct i as [|k|u]; cbn.
  - destruct (apolloHandler (process s)) as [h|]; cbn.
    + specialize (Hins (Settled (Some h))).
      change (pending [Entered]) with 1 in Hins.
      change (pending [Settled (Some h)]) with 0 in Hins. lia.
    + specialize (Hins (AwaitingServer (S (discoveries (process s))))).
      change (pending [Entered]) with 1 in Hins.
      change (pending [AwaitingServer _]) with 0 in Hins. lia.
  - destruct (ok k); cbn.
    + specialize (Hins (Settled (Some k))).
      change (pending [AwaitingServer k]) with 0 in Hins.
      change (pending [Settled _]) with 0 in Hins. lia.
    + specialize (Hins (Settled None)).
      change (pending [AwaitingServer k]) with 0 in Hins.
      change (pending [Settled _]) with 0 in Hins. lia.
  - specialize (Hins (Settled u)). lia.
Qed.

Lemma run_budget (ok : nat → bool) (schedule : list nat) (s : System) :
  (discoveries (process (run ok schedule s)) + pending (invocations (run ok schedule s))
   ≤ discoveries (process s) + pending (invocations s))%nat.
Proof.
  revert s. induction schedule as [|n rest IH]; intros s; [done|].
  cbn. pose proof (IH (step ok s n)) as H1. pose proof (step_budget ok s n) as H2.
  unfold run in H1. lia.
Qed.

(** X20: however the invocations of [handler] interleave and whichever
    discoveries fail, a process that received [n] requests has started at most
    [n] schema discoveries: an invocation never starts a second one. *)
Theorem X20_discoveries_bounded (ok : nat → bool) (schedule : list nat) (n : nat) :
  (discoveries (process (run ok schedule (cold n))) ≤ n)%nat.
Proof.
  pose proof (run_budget ok schedule (cold n)) as H.
  cbn [cold process invocations discoveries] in H. rewrite pending_replicate in H. lia.
Qed.

(** X21: a failed initialisation is not cached.  When the discovery of the first
    request fails, the request rejects, [apolloHandler] stays unset, and the
    next request starts a discovery of its own. *)
Theorem X21_failed_discovery_is_retried (ok : nat → bool) (d : nat)
    (post : list Invocation) :
  ok (S d) = false →
  step ok (step ok (mkSystem (mkProcess None d) (Entered :: post)) 0) 0
    = mkSystem (mkProcess None (S d)) (Settled None :: post) ∧
  step_invocation ok (mkProcess None (S d)) Entered
    = (mkProcess None (S (S d)), AwaitingServer (S (S d))).
Proof. intros Hok. cbn. by rewrite Hok. Qed.

Lemma X21_failed_discovery_is_retried_witness :
  step (λ k, negb (k =? 1)%nat)
    (step (λ k, negb (k =? 1)%nat) (mkSystem (mkProcess None 0) [Entered; Entered]) 0) 0
    = mkSystem (mkProcess None 1) [Settled None; Entered] ∧
  step_invocation (λ k, negb (k =? 1)%nat) (mkProcess None 1) Entered
    = (mkProcess None 2, AwaitingServer 2).
Proof.
  apply (X21_failed_discovery_is_retried (λ k, negb (k =? 1)%nat) 0 [Entered]).
  reflexivity.
Defined.

Lemma built_mono (ok : nat → bool) (p p' : Process) (k : nat) :
  (discoveries p ≤ discoveries p')%nat → built ok p k → built ok p' k.
Proof. unfold built. intros Hle [Hok Hk]. split; [done|lia]. Qed.

(** Every step keeps the system coherent. *)
Lemma step_coherent (ok : nat → bool) (s : System) (n : nat) :
  coherent ok s → coherent ok (step ok s n).
Proof.
  intros [Hh Hall]. unfold step.
  destruct (invocations s !! n) as [i|] eqn:Hn; [|done].
  pose proof (Forall_lookup_1 _ _ _ _ Hall Hn) as Hi. cbn beta in Hi.
  destruct s as [p l]. cbn [process invocations] in *.
  destruct i as [|k|u]; cbn [step_invocation].
  - destruct (apolloHandler p) as [h|] eqn:Hc.
    + split; cbn [process invocations].
      * intros h0. rewrite Hc. apply Hh.
      * apply Forall_insert; [done|]. by apply Hh.
    + split; cbn [process invocations apolloHandler discoveries]; [done|].
      apply Forall_insert; [|lia].
      eapply Forall_impl; [exact Hall|]. intros [|k|[k|]]; cbn beta iota; try done.
      * lia.
      * apply built_mono. cbn. lia.
  - destruct (ok k) eqn:Hok.
    + assert (built ok (mkProcess (Some k) (discoveries p)) k) as Hb by done.
      split; cbn [process invocations apolloHandler discoveries].
      * by intros h [= <-].
      * apply Forall_insert; [|done].
        eapply Forall_impl; [exact Hall|]. intros [|j|[j|]]; cbn beta iota; done.
    + split; cbn [process invocations]; [done|]. by apply Forall_insert.
  - split; cbn [process invocations]; [done|]. by apply Forall_insert.
Qed.

Lemma run_coherent (ok : nat → bool) (schedule : list nat) (s : System) :
  coherent ok s → coherent ok (run ok schedule s).
Proof.
  revert s. induction schedule as [|n rest IH]; intros s Hs; [done|].
  cbn. apply IH. by apply step_coherent.
Qed.

Lemma cold_coherent (ok : nat → bool) (n : nat) : coherent ok (cold n).
Proof.
  split; [done|]. cbn. induction n as [|n IH]; [done|]. cbn. by constructor.
Qed.

(** X22: however the invocations interleave, a request is only ever served by
    a handler that was built: the handler that serves it, like the cached one,
    comes from a discovery that was started and that succeeded. *)
Theorem X22_served_by_a_built_handler (ok : nat → bool) (schedule : list nat)
    (n i k : nat) :
  invocations (run ok schedule (cold n)) !! i = Some (Settled (Some k)) ∨
  apolloHandler (process (run ok schedule (cold n))) = Some k →
  ok k = true ∧
  (1 ≤ k ≤ discoveries (process (run ok schedule (cold n))))%nat.
Proof.
  destruct (run_coherent ok schedule (cold n) (cold_coherent ok n)) as [Hh Hall].
  intros [Hi|Hc].
  - exact (Forall_lookup_1 _ _ _ _ Hall Hi).
  - by apply Hh.
Qed.

Lemma X22_served_by_a_built_handler_witness :
  (λ k, negb (k =? 1)%nat) 2 = true ∧
  (1 ≤ 2 ≤ discoveries
             (process (run (λ k, negb (k =? 1)%nat) [0; 1; 0; 1; 2] (cold 3))))%nat.
Proof.
  apply (X22_served_by_a_built_handler (λ k, negb (k =? 1)%nat) [0; 1; 0; 1; 2] 3 2 2).
  left. reflexivity.
Defined.
